(** * byo-yomi: the time-control engine of a Go game clock

    Shallow embedding of [src/core/gameState.ts] and
    [src/core/timeControl.ts], of the state updaters of
    [src/hooks/useGameClock.ts] and of the value handling of
    [src/components/ConfigScreen.tsx].

    Modelling conventions.
    - A TypeScript [number] holding a count of milliseconds, seconds,
      periods, stones or moves is an integer [Z].  The engine only adds,
      subtracts, compares and multiplies by 1000, which is exact on
      integers inside the safe range of a double, so no wrap-around or
      rounding is written out.  The quotients of [formatTime] are rationals
      ([Q]) on which [Math.ceil] and [Math.floor] act.
    - The tagged unions [TimeControlConfig] and [OvertimeState] are
      inductive types over one record per variant; [overtime: ... | null]
      is an [option].  The field [mainTimeSeconds], which the three
      configuration records share, carries a prefix in each record and is
      read through the function [mainTimeSeconds].
    - Every function builds a fresh object with the spread syntax
      ([{ ...state }]) before it assigns fields, so the embedding is pure
      record construction. *)

From Stdlib Require Import ZArith QArith Qround Bool String Ascii List Lia.
From Stdlib Require Import DecimalString.
From Equations Require Import Equations.
Import ListNotations.

#[local] Open Scope Z_scope.

(** ** Data model ([gameState.ts]) *)

Record ByoYomiConfig : Set := mkByoYomiConfig
  { byo_mainTimeSeconds : Z;
    periods : Z;
    periodTimeSeconds : Z }.

Record CanadianConfig : Set := mkCanadianConfig
  { can_mainTimeSeconds : Z;
    stones : Z;
    overtimeSeconds : Z }.

Record FischerConfig : Set := mkFischerConfig
  { fis_mainTimeSeconds : Z;
    incrementSeconds : Z }.

(** [type TimeControlConfig = ByoYomiConfig | CanadianConfig | FischerConfig];
    the constructor is the [type] tag. *)
Inductive TimeControlConfig : Set :=
| Byoyomi (c : ByoYomiConfig)
| Canadian (c : CanadianConfig)
| Fischer (c : FischerConfig).

(** [config.mainTimeSeconds], a field every variant has. *)
Definition mainTimeSeconds (config : TimeControlConfig) : Z :=
  match config with
  | Byoyomi c => byo_mainTimeSeconds c
  | Canadian c => can_mainTimeSeconds c
  | Fischer c => fis_mainTimeSeconds c
  end.

Record ByoYomiOvertime : Set := mkByoYomiOvertime
  { periodsRemaining : Z;
    periodTimeRemainingMs : Z }.

Record CanadianOvertime : Set := mkCanadianOvertime
  { stonesRemaining : Z;
    overtimeRemainingMs : Z }.

(** [type OvertimeState = ByoYomiOvertime | CanadianOvertime]. *)
Inductive OvertimeState : Set :=
| OTByoyomi (o : ByoYomiOvertime)
| OTCanadian (o : CanadianOvertime).

Record PlayerState : Set := mkPlayerState
  { mainTimeRemainingMs : Z;
    overtime : option OvertimeState;
    moves : Z;
    isInOvertime : bool }.

Definition createInitialPlayerState (config : TimeControlConfig) : PlayerState :=
  {| mainTimeRemainingMs := mainTimeSeconds config * 1000;
     overtime := None;
     moves := 0;
     isInOvertime := false |}.

(** Field updates of a spread copy: [{ ...state, f: v }]. *)
Definition set_mainTimeRemainingMs (v : Z) (state : PlayerState) : PlayerState :=
  {| mainTimeRemainingMs := v;
     overtime := overtime state;
     moves := moves state;
     isInOvertime := isInOvertime state |}.

Definition set_overtime (v : option OvertimeState) (state : PlayerState) : PlayerState :=
  {| mainTimeRemainingMs := mainTimeRemainingMs state;
     overtime := v;
     moves := moves state;
     isInOvertime := isInOvertime state |}.

Definition set_moves (v : Z) (state : PlayerState) : PlayerState :=
  {| mainTimeRemainingMs := mainTimeRemainingMs state;
     overtime := overtime state;
     moves := v;
     isInOvertime := isInOvertime state |}.

(** ** The engine ([timeControl.ts]) *)

Record TickResult : Set := mkTickResult
  { newState : PlayerState;
    expired : bool;
    enteredOvertime : bool }.

(** [createOvertimeState]: the fresh overtime state of a scheme, [null]
    for Fischer. *)
Definition createOvertimeState (config : TimeControlConfig) : option OvertimeState :=
  match config with
  | Byoyomi c =>
      Some (OTByoyomi {| periodsRemaining := periods c;
                         periodTimeRemainingMs := periodTimeSeconds c * 1000 |})
  | Canadian c =>
      Some (OTCanadian {| stonesRemaining := stones c;
                          overtimeRemainingMs := overtimeSeconds c * 1000 |})
  | Fischer _ => None
  end.

(** One pass through the body of the [while] loop of [tickOvertime]:
    consume a period and, if one is left, add a full period to the
    remaining time. *)
Definition consumePeriod (periodMs : Z) (ot : ByoYomiOvertime) : ByoYomiOvertime :=
  let p := periodsRemaining ot - 1 in
  {| periodsRemaining := p;
     periodTimeRemainingMs :=
       if 0 <? p then periodTimeRemainingMs ot + periodMs
       else periodTimeRemainingMs ot |}.

(** The guard of the loop:
    [overtime.periodTimeRemainingMs <= 0 && overtime.periodsRemaining > 0]. *)
Definition periodExpired (ot : ByoYomiOvertime) : bool :=
  (periodTimeRemainingMs ot <=? 0) && (0 <? periodsRemaining ot).

(** Case analysis on a computed boolean that keeps the equation, for the
    termination argument below. *)
Definition inspect {A : Type} (a : A) : {b : A | a = b} := exist _ a eq_refl.

(** The [while] loop itself.  It terminates because every pass lowers
    [periodsRemaining], which the guard keeps positive. *)
Equations? consumePeriods (periodMs : Z) (ot : ByoYomiOvertime) : ByoYomiOvertime
  by wf (Z.to_nat (periodsRemaining ot)) lt :=
  consumePeriods periodMs ot with inspect (periodExpired ot) := {
    | exist _ true _ => consumePeriods periodMs (consumePeriod periodMs ot)
    | exist _ false _ => ot }.
Proof.
  unfold periodExpired in e.
  apply andb_prop in e. destruct e as [_ Hp].
  apply Z.ltb_lt in Hp. cbn. lia.
Qed.

(** [tickOvertime]; the anonymous result object [{ newState, expired }] is
    a pair. *)
Definition tickOvertime (state : PlayerState) (config : TimeControlConfig)
    (deltaMs : Z) : PlayerState * bool :=
  match config, overtime state with
  | Byoyomi c, Some (OTByoyomi o) =>
      let overtime0 :=
        {| periodsRemaining := periodsRemaining o;
           periodTimeRemainingMs := periodTimeRemainingMs o - deltaMs |} in
      let overtime1 := consumePeriods (periodTimeSeconds c * 1000) overtime0 in
      if periodsRemaining overtime1 <=? 0 then
        (set_overtime
           (Some (OTByoyomi {| periodsRemaining := periodsRemaining overtime1;
                               periodTimeRemainingMs := 0 |})) state,
         true)
      else (set_overtime (Some (OTByoyomi overtime1)) state, false)
  | Canadian c, Some (OTCanadian o) =>
      let remaining := overtimeRemainingMs o - deltaMs in
      if remaining <=? 0 then
        (set_overtime
           (Some (OTCanadian {| stonesRemaining := stonesRemaining o;
                                overtimeRemainingMs := 0 |})) state,
         true)
      else
        (set_overtime
           (Some (OTCanadian {| stonesRemaining := stonesRemaining o;
                                overtimeRemainingMs := remaining |})) state,
         false)
  | Fischer _, _ => (state, true)
  | _, _ => (state, false)
  end.

(** [tick]. *)
Definition tick (state : PlayerState) (config : TimeControlConfig)
    (deltaMs : Z) : TickResult :=
  if isInOvertime state then
    let result := tickOvertime state config deltaMs in
    {| newState := fst result; expired := snd result; enteredOvertime := false |}
  else
    let main := mainTimeRemainingMs state - deltaMs in
    if main <=? 0 then
      let overflow := - main in
      let entered :=
        {| mainTimeRemainingMs := 0;
           overtime := createOvertimeState config;
           moves := moves state;
           isInOvertime := true |} in
      match overtime entered with
      | Some _ =>
          let result := tickOvertime entered config overflow in
          {| newState := fst result; expired := snd result; enteredOvertime := true |}
      | None =>
          {| newState := entered; expired := true; enteredOvertime := true |}
      end
    else
      {| newState := set_mainTimeRemainingMs main state;
         expired := false;
         enteredOvertime := false |}.

(** [onMove]. *)
Definition onMove (state : PlayerState) (config : TimeControlConfig) : PlayerState :=
  let moved := set_moves (moves state + 1) state in
  match config, isInOvertime moved, overtime moved with
  | Fischer c, false, _ =>
      set_mainTimeRemainingMs
        (mainTimeRemainingMs moved + incrementSeconds c * 1000) moved
  | Byoyomi c, true, Some (OTByoyomi o) =>
      set_overtime
        (Some (OTByoyomi {| periodsRemaining := periodsRemaining o;
                            periodTimeRemainingMs := periodTimeSeconds c * 1000 |}))
        moved
  | Canadian c, true, Some (OTCanadian o) =>
      let stones' := stonesRemaining o - 1 in
      if stones' <=? 0 then
        set_overtime
          (Some (OTCanadian {| stonesRemaining := stones c;
                               overtimeRemainingMs := overtimeSeconds c * 1000 |}))
          moved
      else
        set_overtime
          (Some (OTCanadian {| stonesRemaining := stones';
                               overtimeRemainingMs := overtimeRemainingMs o |}))
          moved
  | _, _, _ => moved
  end.

(** [getDisplayTime]. *)
Definition getDisplayTime (state : PlayerState) : Z :=
  if negb (isInOvertime state) then mainTimeRemainingMs state
  else
    match overtime state with
    | Some (OTByoyomi o) => periodTimeRemainingMs o
    | Some (OTCanadian o) => overtimeRemainingMs o
    | None => mainTimeRemainingMs state
    end.

(** ** Display formatting ([formatTime]) *)

Module JS.

(** [Number.prototype.toString] on an integer: its decimal digits, with a
    leading minus sign when negative. *)
Definition toString (n : Z) : string := NilZero.string_of_int (Z.to_int n).

(** The filler of [padStart]: the first [n] characters of [pad] repeated
    ([rest] is what is left of the copy being read). *)
Fixpoint filler (n : nat) (pad rest : string) : string :=
  match n with
  | O => EmptyString
  | S n' =>
      match rest with
      | String ch rest' => String ch (filler n' pad rest')
      | EmptyString =>
          match pad with
          | String ch pad' => String ch (filler n' pad pad')
          | EmptyString => EmptyString
          end
      end
  end.

(** [String.prototype.padStart(targetLength, padString)]. *)
Definition padStart (s : string) (targetLength : nat) (padString : string) : string :=
  (filler (targetLength - String.length s) padString padString ++ s)%string.

(** [Math.ceil] and [Math.floor] of a quotient, [Math.max] and the
    remainder operator [%] (which truncates towards zero) on integers. *)
Definition Math_ceil (x : Q) : Z := Qceiling x.
Definition Math_floor (x : Q) : Z := Qfloor x.
Definition Math_max (a b : Z) : Z := Z.max a b.
Definition rem (a b : Z) : Z := Z.rem a b.

End JS.

(** The first line of [formatTime]:
    [const totalSeconds = Math.max(0, Math.ceil(ms / 1000))]. *)
Definition totalSeconds (ms : Z) : Z :=
  JS.Math_max 0 (JS.Math_ceil (inject_Z ms / inject_Z 1000)).

Definition formatTime (ms : Z) : string :=
  let total := totalSeconds ms in
  let hours := JS.Math_floor (inject_Z total / inject_Z 3600) in
  let minutes := JS.Math_floor (inject_Z (JS.rem total 3600) / inject_Z 60) in
  let seconds := JS.rem total 60 in
  if 0 <? hours then
    (JS.toString hours ++ ":" ++ JS.padStart (JS.toString minutes) 2 "0"
       ++ ":" ++ JS.padStart (JS.toString seconds) 2 "0")%string
  else
    (JS.toString minutes ++ ":" ++ JS.padStart (JS.toString seconds) 2 "0")%string.

(** ** Which branch of [tickOvertime] a call runs

    [tickOvertime] is an if-else chain with three guarded branches and no
    final [else].  The instrumented copies below return, next to the
    result, the branches of [tickOvertime] that were run, in order:
    [tickOvertimeT] tags each arm of [tickOvertime], and [tickT] collects
    the tags at the two places where [tick] calls it. *)

Inductive OvertimeBranch : Set :=
| BranchByoyomi
| BranchCanadian
| BranchFischer
| BranchFallThrough.

Definition tickOvertimeT (state : PlayerState) (config : TimeControlConfig)
    (deltaMs : Z) : (PlayerState * bool) * OvertimeBranch :=
  match config, overtime state with
  | Byoyomi c, Some (OTByoyomi o) =>
      let overtime0 :=
        {| periodsRemaining := periodsRemaining o;
           periodTimeRemainingMs := periodTimeRemainingMs o - deltaMs |} in
      let overtime1 := consumePeriods (periodTimeSeconds c * 1000) overtime0 in
      if periodsRemaining overtime1 <=? 0 then
        ((set_overtime
            (Some (OTByoyomi {| periodsRemaining := periodsRemaining overtime1;
                                periodTimeRemainingMs := 0 |})) state,
          true), BranchByoyomi)
      else ((set_overtime (Some (OTByoyomi overtime1)) state, false), BranchByoyomi)
  | Canadian c, Some (OTCanadian o) =>
      let remaining := overtimeRemainingMs o - deltaMs in
      if remaining <=? 0 then
        ((set_overtime
            (Some (OTCanadian {| stonesRemaining := stonesRemaining o;
                                 overtimeRemainingMs := 0 |})) state,
          true), BranchCanadian)
      else
        ((set_overtime
            (Some (OTCanadian {| stonesRemaining := stonesRemaining o;
                                 overtimeRemainingMs := remaining |})) state,
          false), BranchCanadian)
  | Fischer _, _ => ((state, true), BranchFischer)
  | _, _ => ((state, false), BranchFallThrough)
  end.

Definition tickT (state : PlayerState) (config : TimeControlConfig)
    (deltaMs : Z) : TickResult * list OvertimeBranch :=
  if isInOvertime state then
    let (result, branch) := tickOvertimeT state config deltaMs in
    ({| newState := fst result; expired := snd result; enteredOvertime := false |},
     [branch])
  else
    let main := mainTimeRemainingMs state - deltaMs in
    if main <=? 0 then
      let overflow := - main in
      let entered :=
        {| mainTimeRemainingMs := 0;
           overtime := createOvertimeState config;
           moves := moves state;
           isInOvertime := true |} in
      match overtime entered with
      | Some _ =>
          let (result, branch) := tickOvertimeT entered config overflow in
          ({| newState := fst result; expired := snd result; enteredOvertime := true |},
           [branch])
      | None =>
          ({| newState := entered; expired := true; enteredOvertime := true |}, [])
      end
    else
      ({| newState := set_mainTimeRemainingMs main state;
          expired := false;
          enteredOvertime := false |}, []).

(** ** States a game can reach *)

(** Every state obtained from the initial one by calls of [tick] (with a
    delta that is not negative) and [onMove]. *)
Inductive Reachable (config : TimeControlConfig) : PlayerState -> Prop :=
| Reachable_init :
    Reachable config (createInitialPlayerState config)
| Reachable_tick state deltaMs :
    Reachable config state -> 0 <= deltaMs ->
    Reachable config (newState (tick state config deltaMs))
| Reachable_onMove state :
    Reachable config state ->
    Reachable config (onMove state config).

(** The states the game loop of [useGameClock] hands to the engine: it
    sets the game to [ended] at the first tick that reports [expired], and
    calls neither [tick] nor [onMove] afterwards. *)
Inductive InPlay (config : TimeControlConfig) : PlayerState -> Prop :=
| InPlay_init :
    InPlay config (createInitialPlayerState config)
| InPlay_tick state deltaMs :
    InPlay config state -> 0 <= deltaMs ->
    expired (tick state config deltaMs) = false ->
    InPlay config (newState (tick state config deltaMs))
| InPlay_onMove state :
    InPlay config state ->
    InPlay config (onMove state config).

(** ** Well-formed configurations and states *)

(** The constraints on a configuration: [periods >= 0] and
    [periodTimeSeconds > 0]; [stones >= 1] and [overtimeSeconds > 0];
    [incrementSeconds >= 0]; main time never negative. *)
Definition configValid (config : TimeControlConfig) : Prop :=
  match config with
  | Byoyomi c => 0 <= byo_mainTimeSeconds c /\ 0 <= periods c /\ 0 < periodTimeSeconds c
  | Canadian c => 0 <= can_mainTimeSeconds c /\ 1 <= stones c /\ 0 < overtimeSeconds c
  | Fischer c => 0 <= fis_mainTimeSeconds c /\ 0 <= incrementSeconds c
  end.

(** Counters and counts of an overtime state are not negative. *)
Definition overtimeNonneg (ot : option OvertimeState) : Prop :=
  match ot with
  | Some (OTByoyomi o) => 0 <= periodsRemaining o /\ 0 <= periodTimeRemainingMs o
  | Some (OTCanadian o) => 0 <= stonesRemaining o /\ 0 <= overtimeRemainingMs o
  | None => True
  end.

(** The overtime state has the variant of the configuration: present and
    of the same scheme for byo-yomi and Canadian, absent for Fischer. *)
Definition overtimeMatches (config : TimeControlConfig) (ot : option OvertimeState) : Prop :=
  match config, ot with
  | Byoyomi _, Some (OTByoyomi _) => True
  | Canadian _, Some (OTCanadian _) => True
  | Fischer _, None => True
  | _, _ => False
  end.

(** The invariants of a player clock state. *)
Definition stateValid (config : TimeControlConfig) (state : PlayerState) : Prop :=
  0 <= mainTimeRemainingMs state
  /\ 0 <= moves state
  /\ overtimeNonneg (overtime state)
  /\ (isInOvertime state = true ->
      mainTimeRemainingMs state = 0 /\ overtimeMatches config (overtime state)).

(** When [tick] with a delta of 0 changes nothing: the counter that is
    running has time left on it. *)
Definition clockRunning (config : TimeControlConfig) (state : PlayerState) : bool :=
  if isInOvertime state then
    match config, overtime state with
    | Byoyomi _, Some (OTByoyomi o) =>
        (0 <? periodTimeRemainingMs o) && (0 <? periodsRemaining o)
    | Canadian _, Some (OTCanadian o) => 0 <? overtimeRemainingMs o
    | Fischer _, _ => false
    | _, _ => true
    end
  else 0 <? mainTimeRemainingMs state.

(** The counter of a fresh overtime state, in milliseconds. *)
Definition freshOvertimeMs (config : TimeControlConfig) : Z :=
  match createOvertimeState config with
  | Some (OTByoyomi o) => periodTimeRemainingMs o
  | Some (OTCanadian o) => overtimeRemainingMs o
  | None => 0
  end.

(** ** The display format, as the specification words it *)

Module Spec.

(** A decimal digit as a character. *)
Definition digit (d : Z) : ascii := ascii_of_nat (48 + Z.to_nat d).

(** A number below 100 on two digits, zero-padded. *)
Definition twoDigits (n : Z) : string :=
  String (digit (n / 10)) (String (digit (n mod 10)) EmptyString).

(** A number of seconds as [H:MM:SS] when it has hours and [M:SS]
    otherwise; the leading field is printed as it is. *)
Definition renderSeconds (t : Z) : string :=
  let h := t / 3600 in
  let m := (t mod 3600) / 60 in
  let s := t mod 60 in
  if 0 <? h then
    (JS.toString h ++ ":" ++ twoDigits m ++ ":" ++ twoDigits s)%string
  else (JS.toString m ++ ":" ++ twoDigits s)%string.

End Spec.

(** ** The game and the hook that drives it ([gameState.ts],
    [hooks/useGameClock.ts])

    [useGameClock] keeps a [GameState] and three refs, and changes them
    in the updater functions it hands to [setGameState].  Each updater is
    modelled as a function on the hook's state that also returns the
    effects it performs, in order: sounds played through [useAudio] and
    the callbacks of [GameClockCallbacks] (called when the caller supplied
    them).  [lastTickRef], the animation-frame handle and the copies of
    state kept in refs against stale closures are left out: the game loop
    is given the delta it computed. *)

Inductive SoundProfile : Set := silent | subtle | intense.

Record GameConfig : Set := mkGameConfig
  { timeControl : TimeControlConfig;
    soundProfile : SoundProfile }.

Inductive GameStatus : Set := waiting | running | paused | ended.

(** [type Player = 'black' | 'white']. *)
Inductive Player : Set := Black | White.

Record GameState : Set := mkGameState
  { status : GameStatus;
    activePlayer : Player;
    black : PlayerState;
    white : PlayerState;
    winner : option Player }.

Definition createInitialGameState (config : GameConfig) : GameState :=
  {| status := waiting;
     activePlayer := Black;
     black := createInitialPlayerState (timeControl config);
     white := createInitialPlayerState (timeControl config);
     winner := None |}.

(** [prevState[activePlayer]]. *)
Definition playerState (g : GameState) (p : Player) : PlayerState :=
  match p with
  | Black => black g
  | White => white g
  end.

(** [activePlayer === 'black' ? 'white' : 'black']. *)
Definition opponent (p : Player) : Player :=
  match p with
  | Black => White
  | White => Black
  end.

Definition Player_eqb (p q : Player) : bool :=
  match p, q with
  | Black, Black | White, White => true
  | _, _ => false
  end.

Module SoundId.

(** [type SoundId = 'click' | 'tick' | 'alert' | 'gong']. *)
Inductive t : Set := click | tick | alert | gong.

End SoundId.

(** What an updater does besides returning a state. *)
Inductive Effect : Set :=
| InitAudio
| CancelScheduled
| Play (sound : SoundId.t)
| OnEnteredOvertime (player : Player)
| OnLowTime (player : Player) (seconds : Z)
| OnGameOver (winner : Player).

Module JSSet.

(** A JavaScript [Set], as the list of its elements in insertion order. *)
Definition has {A : Type} (eqb : A -> A -> bool) (x : A) (s : list A) : bool :=
  existsb (eqb x) s.

Definition add {A : Type} (eqb : A -> A -> bool) (x : A) (s : list A) : list A :=
  if has eqb x s then s else s ++ [x].

End JSSet.

Module UseGameClock.

(** The state of the hook: [gameState] and the refs the updaters read and
    write. *)
Record Hook : Set := mkHook
  { gameState : GameState;
    lowTimeAlertedRef : list Z;
    enteredOvertimeRef : list Player;
    prevDisplayMsRef : Z }.

(** The hook as [useState] and [useRef] initialise it. *)
Definition initial (config : GameConfig) : Hook :=
  {| gameState := createInitialGameState config;
     lowTimeAlertedRef := [];
     enteredOvertimeRef := [];
     prevDisplayMsRef := 0 |}.

(** [{ ...prevState, [activePlayer]: newPlayerState }]. *)
Definition withPlayer (p : Player) (s : PlayerState) (g : GameState) : GameState :=
  match p with
  | Black =>
      {| status := status g; activePlayer := activePlayer g;
         black := s; white := white g; winner := winner g |}
  | White =>
      {| status := status g; activePlayer := activePlayer g;
         black := black g; white := s; winner := winner g |}
  end.

(** The updater of the game loop. *)
Definition gameLoopUpdate (config : GameConfig) (deltaMs : Z) (h : Hook)
    : Hook * list Effect :=
  let prevState := gameState h in
  match status prevState with
  | running =>
      let active := activePlayer prevState in
      let result := tick (playerState prevState active) (timeControl config) deltaMs in
      (* Handle entering overtime *)
      let announce :=
        enteredOvertime result
        && negb (JSSet.has Player_eqb active (enteredOvertimeRef h)) in
      let entered :=
        if announce then JSSet.add Player_eqb active (enteredOvertimeRef h)
        else enteredOvertimeRef h in
      let effects1 :=
        if announce then [Play SoundId.alert; OnEnteredOvertime active] else [] in
      if expired result then
        (* Handle game over *)
        let won := opponent active in
        ({| gameState :=
              {| status := ended;
                 activePlayer := activePlayer prevState;
                 black := black (withPlayer active (newState result) prevState);
                 white := white (withPlayer active (newState result) prevState);
                 winner := Some won |};
            lowTimeAlertedRef := lowTimeAlertedRef h;
            enteredOvertimeRef := entered;
            prevDisplayMsRef := prevDisplayMsRef h |},
         effects1 ++ [Play SoundId.gong; OnGameOver won])
      else
        let displayMs := getDisplayTime (newState result) in
        let displaySeconds := JS.Math_ceil (inject_Z displayMs / inject_Z 1000) in
        (* Clear alerts if time increased *)
        let increased :=
          (prevDisplayMsRef h + 1000 <? displayMs) && (0 <? prevDisplayMsRef h) in
        let alerted1 := if increased then [] else lowTimeAlertedRef h in
        let effects2 :=
          if increased && negb (enteredOvertime result)
          then [Play SoundId.alert] else [] in
        (* Beep at 5, 4, 3, 2, 1 seconds *)
        let beep :=
          (displaySeconds <=? 5) && (1 <=? displaySeconds)
          && negb (JSSet.has Z.eqb displaySeconds alerted1) in
        let alerted2 :=
          if beep then JSSet.add Z.eqb displaySeconds alerted1 else alerted1 in
        let effects3 :=
          if beep then [Play SoundId.tick; OnLowTime active displaySeconds] else [] in
        ({| gameState := withPlayer active (newState result) prevState;
            lowTimeAlertedRef := alerted2;
            enteredOvertimeRef := entered;
            prevDisplayMsRef := displayMs |},
         effects1 ++ effects2 ++ effects3)
  | _ => (h, [])
  end.

(** One animation frame, [deltaMs] after the previous one: the updater
    runs only [if (deltaMs > 0)]. *)
Definition gameLoop (config : GameConfig) (deltaMs : Z) (h : Hook)
    : Hook * list Effect :=
  if 0 <? deltaMs then gameLoopUpdate config deltaMs h else (h, []).

(** [switchTurn]. *)
Definition switchTurn (config : GameConfig) (h : Hook) : Hook * list Effect :=
  let prevState := gameState h in
  match status prevState with
  | running =>
      let active := activePlayer prevState in
      let newPlayerState :=
        onMove (playerState prevState active) (timeControl config) in
      ({| gameState :=
            {| status := status prevState;
               activePlayer := opponent active;
               black := black (withPlayer active newPlayerState prevState);
               white := white (withPlayer active newPlayerState prevState);
               winner := winner prevState |};
          lowTimeAlertedRef := [];
          enteredOvertimeRef := enteredOvertimeRef h;
          prevDisplayMsRef := 0 |},
       [InitAudio; CancelScheduled; Play SoundId.click])
  | _ => (h, [InitAudio])
  end.

Definition set_status (v : GameStatus) (g : GameState) : GameState :=
  {| status := v; activePlayer := activePlayer g;
     black := black g; white := white g; winner := winner g |}.

Definition set_gameState (g : GameState) (h : Hook) : Hook :=
  {| gameState := g;
     lowTimeAlertedRef := lowTimeAlertedRef h;
     enteredOvertimeRef := enteredOvertimeRef h;
     prevDisplayMsRef := prevDisplayMsRef h |}.

(** [pause]. *)
Definition pause (h : Hook) : Hook * list Effect :=
  (match status (gameState h) with
   | running => set_gameState (set_status paused (gameState h)) h
   | _ => h
   end,
   [CancelScheduled]).

(** [resume]. *)
Definition resume (h : Hook) : Hook * list Effect :=
  (match status (gameState h) with
   | paused => set_gameState (set_status running (gameState h)) h
   | _ => h
   end,
   [InitAudio]).

(** [reset]. *)
Definition reset (config : GameConfig) (h : Hook) : Hook * list Effect :=
  ({| gameState := createInitialGameState config;
      lowTimeAlertedRef := [];
      enteredOvertimeRef := [];
      prevDisplayMsRef := 0 |},
   [CancelScheduled]).

(** [start]. *)
Definition start (firstActivePlayer : Player) (h : Hook) : Hook * list Effect :=
  (match status (gameState h) with
   | waiting =>
       set_gameState
         {| status := running;
            activePlayer := firstActivePlayer;
            black := black (gameState h);
            white := white (gameState h);
            winner := winner (gameState h) |} h
   | _ => h
   end,
   [InitAudio; Play SoundId.click]).

(** What the user and the frames can do to the hook. *)
Inductive Action : Set :=
| Frame (deltaMs : Z)
| SwitchTurn
| Pause
| Resume
| Reset
| Start (firstActivePlayer : Player).

Definition step (config : GameConfig) (a : Action) (h : Hook) : Hook * list Effect :=
  match a with
  | Frame deltaMs => gameLoop config deltaMs h
  | SwitchTurn => switchTurn config h
  | Pause => pause h
  | Resume => resume h
  | Reset => reset config h
  | Start p => start p h
  end.

(** The hook after a sequence of actions, and everything it did. *)
Fixpoint run (config : GameConfig) (actions : list Action) (h : Hook)
    : Hook * list Effect :=
  match actions with
  | [] => (h, [])
  | a :: rest =>
      let (h1, effects1) := step config a h in
      let (h2, effects2) := run config rest h1 in
      (h2, effects1 ++ effects2)
  end.

End UseGameClock.

(** The states of the hook: the initial one and those any sequence of
    actions leads to. *)
Inductive HookReached (config : GameConfig) : UseGameClock.Hook -> Prop :=
| HookReached_initial :
    HookReached config (UseGameClock.initial config)
| HookReached_step a h :
    HookReached config h ->
    HookReached config (fst (UseGameClock.step config a h)).

(** The clock of the player to move was stopped by a tick that reported
    expiry. *)
Definition flagFell (config : TimeControlConfig) (state : PlayerState) : Prop :=
  exists (before : PlayerState) (deltaMs : Z),
    InPlay config before /\ 0 < deltaMs
    /\ expired (tick before config deltaMs) = true
    /\ state = newState (tick before config deltaMs).

(** What holds of every state of the hook. *)
Definition hookInvariant (config : GameConfig) (h : UseGameClock.Hook) : Prop :=
  let g := UseGameClock.gameState h in
  let tc := timeControl config in
  let active := activePlayer g in
  match status g with
  | ended =>
      winner g = Some (opponent active)
      /\ flagFell tc (playerState g active)
      /\ InPlay tc (playerState g (opponent active))
  | waiting =>
      g = createInitialGameState config
  | _ =>
      winner g = None /\ (forall p : Player, InPlay tc (playerState g p))
  end
  /\ 0 <= moves (playerState g (opponent active)) - moves (playerState g active) <= 1
  /\ (forall p : Player,
        JSSet.has Player_eqb p (UseGameClock.enteredOvertimeRef h)
        = isInOvertime (playerState g p)).

(** Sequences of actions without [reset]. *)
Definition withoutReset (actions : list UseGameClock.Action) : bool :=
  forallb
    (fun a => match a with UseGameClock.Reset => false | _ => true end)
    actions.

(** A game for the examples: the byo-yomi configuration of the test
    suite. *)
Definition sampleGame : GameConfig :=
  {| timeControl :=
       Byoyomi {| byo_mainTimeSeconds := 60; periods := 3; periodTimeSeconds := 30 |};
     soundProfile := subtle |}.

Definition fischerGame : GameConfig :=
  {| timeControl := Fischer {| fis_mainTimeSeconds := 60; incrementSeconds := 10 |};
     soundProfile := subtle |}.

(** ** The configuration form ([components/ConfigScreen.tsx]) *)

Module ConfigScreen.

Inductive TimeControlType : Set := byoyomi | canadian | fischer.

Record StoredConfig : Set := mkStoredConfig
  { timeControlType : TimeControlType;
    mainTimeMinutes : Z;
    mainTimeSeconds : Z;
    byoYomiPeriods : Z;
    byoYomiPeriodSeconds : Z;
    canadianStones : Z;
    canadianOvertimeMinutes : Z;
    canadianOvertimeSeconds : Z;
    fischerIncrementSeconds : Z;
    soundProfile : SoundProfile }.

Definition DEFAULT_CONFIG : StoredConfig :=
  {| timeControlType := byoyomi;
     mainTimeMinutes := 10;
     mainTimeSeconds := 0;
     byoYomiPeriods := 5;
     byoYomiPeriodSeconds := 30;
     canadianStones := 25;
     canadianOvertimeMinutes := 5;
     canadianOvertimeSeconds := 0;
     fischerIncrementSeconds := 10;
     soundProfile := subtle |}.

(** [handleBlur] of [NumberInput]: the value handed to [onChange].
    [parsed] is the result of [parseInt(localValue, 10)], [None] for
    [NaN] (which the empty string gives too); [Math.min] on integers is
    [Z.min]. *)
Definition handleBlur (min max : Z) (parsed : option Z) : Z :=
  match parsed with
  | None => min
  | Some v => JS.Math_max min (Z.min max v)
  end.

(** [handleStart]: the game configuration passed to [onStartGame]. *)
Definition handleStart (config : StoredConfig) : GameConfig :=
  let mainTime := mainTimeMinutes config * 60 + mainTimeSeconds config in
  let timeControl :=
    match timeControlType config with
    | byoyomi =>
        Byoyomi (mkByoYomiConfig mainTime (byoYomiPeriods config)
                   (byoYomiPeriodSeconds config))
    | canadian =>
        Canadian (mkCanadianConfig mainTime (canadianStones config)
                    (canadianOvertimeMinutes config * 60
                     + canadianOvertimeSeconds config))
    | fischer =>
        Fischer (mkFischerConfig mainTime (fischerIncrementSeconds config))
    end in
  mkGameConfig timeControl (soundProfile config).

(** The bounds the [min] and [max] props of the form's [NumberInput]s put
    on each field. *)
Definition withinInputs (config : StoredConfig) : Prop :=
  0 <= mainTimeMinutes config <= 999
  /\ 0 <= mainTimeSeconds config <= 59
  /\ 1 <= byoYomiPeriods config <= 99
  /\ 1 <= byoYomiPeriodSeconds config <= 999
  /\ 1 <= canadianStones config <= 99
  /\ 0 <= canadianOvertimeMinutes config <= 999
  /\ 0 <= canadianOvertimeSeconds config <= 59
  /\ 0 <= fischerIncrementSeconds config <= 999.

End ConfigScreen.

(** ** The configurations of the test suite *)

Definition byo60 : TimeControlConfig :=
  Byoyomi {| byo_mainTimeSeconds := 60; periods := 3; periodTimeSeconds := 30 |}.

Definition can60 : TimeControlConfig :=
  Canadian {| can_mainTimeSeconds := 60; stones := 25; overtimeSeconds := 300 |}.

Definition fischer60 : TimeControlConfig :=
  Fischer {| fis_mainTimeSeconds := 60; incrementSeconds := 10 |}.

(** * Properties *)

(** ** The period loop *)

Lemma consumePeriods_step (periodMs : Z) (ot : ByoYomiOvertime) :
  consumePeriods periodMs ot
  = if periodExpired ot then consumePeriods periodMs (consumePeriod periodMs ot)
    else ot.
Proof.
  rewrite consumePeriods_equation_1.
  destruct (inspect (periodExpired ot)) as [[|] E]; cbn; rewrite E; reflexivity.
Qed.

Lemma periodExpired_true (ot : ByoYomiOvertime) :
  periodExpired ot = true <->
  periodTimeRemainingMs ot <= 0 /\ 0 < periodsRemaining ot.
Proof.
  unfold periodExpired. rewrite andb_true_iff, Z.leb_le, Z.ltb_lt. tauto.
Qed.

Lemma periodExpired_false (ot : ByoYomiOvertime) :
  periodExpired ot = false <->
  0 < periodTimeRemainingMs ot \/ periodsRemaining ot <= 0.
Proof.
  unfold periodExpired. rewrite andb_false_iff, Z.leb_gt, Z.ltb_ge. tauto.
Qed.

(** Induction along the passes of the loop: a relation between the value
    on entry and the value on exit holds if it holds when the guard fails
    and is carried back over one pass. *)
Lemma consumePeriods_rel (periodMs : Z)
    (Q : ByoYomiOvertime -> ByoYomiOvertime -> Prop) :
  (forall ot, periodExpired ot = false -> Q ot ot) ->
  (forall ot r, periodExpired ot = true ->
                Q (consumePeriod periodMs ot) r -> Q ot r) ->
  forall ot, Q ot (consumePeriods periodMs ot).
Proof.
  intros Hstop Hpass.
  assert (H : forall (n : nat) ot,
             (Z.to_nat (periodsRemaining ot) < n)%nat ->
             Q ot (consumePeriods periodMs ot)).
  { induction n as [|n IH]; intros ot Hn; [inversion Hn|].
    rewrite consumePeriods_step.
    destruct (periodExpired ot) eqn:E.
    - apply Hpass; [exact E|]. apply IH.
      apply periodExpired_true in E. cbn. lia.
    - apply Hstop, E. }
  intros ot. apply (H (S (Z.to_nat (periodsRemaining ot)))). lia.
Qed.

(** The loop never gives periods back. *)
Lemma consumePeriods_le (periodMs : Z) (ot : ByoYomiOvertime) :
  periodsRemaining (consumePeriods periodMs ot) <= periodsRemaining ot.
Proof.
  apply (consumePeriods_rel periodMs
           (fun a r => periodsRemaining r <= periodsRemaining a)).
  - intros; lia.
  - intros a r _ H. cbn in H. lia.
Qed.

(** What the loop computes.  Entered with [P >= 0] periods and a remainder
    [t], it makes [k] passes, where [k] is the first index below [P] at
    which [t + k * periodMs] is positive, or [P] when there is none. *)
Lemma consumePeriods_cascade (periodMs : Z) (ot : ByoYomiOvertime) :
  let P := periodsRemaining ot in
  let t := periodTimeRemainingMs ot in
  0 <= P ->
  exists k : Z,
    0 <= k <= P
    /\ (forall j, 0 <= j < k -> t + j * periodMs <= 0)
    /\ ((k < P /\ 0 < t + k * periodMs
         /\ consumePeriods periodMs ot
            = {| periodsRemaining := P - k;
                 periodTimeRemainingMs := t + k * periodMs |})
        \/ (k = P /\ periodsRemaining (consumePeriods periodMs ot) = 0)).
Proof.
  cbv zeta.
  apply (consumePeriods_rel periodMs
    (fun a r =>
       0 <= periodsRemaining a ->
       exists k : Z,
         0 <= k <= periodsRemaining a
         /\ (forall j, 0 <= j < k -> periodTimeRemainingMs a + j * periodMs <= 0)
         /\ ((k < periodsRemaining a /\ 0 < periodTimeRemainingMs a + k * periodMs
              /\ r = {| periodsRemaining := periodsRemaining a - k;
                        periodTimeRemainingMs :=
                          periodTimeRemainingMs a + k * periodMs |})
             \/ (k = periodsRemaining a /\ periodsRemaining r = 0)))).
  - intros [P t] E HP. cbn in *.
    apply periodExpired_false in E. cbn in E.
    exists 0. split; [lia|]. split; [intros; lia|].
    destruct (Z.eq_dec P 0) as [->|HP0].
    + right. split; reflexivity.
    + left. split; [lia|]. split; [lia|]. f_equal; lia.
  - intros [P t] r E IH HP.
    apply periodExpired_true in E. cbn in *.
    destruct IH as (k & Hk & Hle & Hres); [lia|].
    exists (k + 1). split; [lia|]. split.
    + intros j Hj. destruct (Z.eq_dec j 0) as [->|Hj0]; [lia|].
      assert (HP1 : (0 <? P - 1) = true) by (apply Z.ltb_lt; lia).
      rewrite HP1 in Hle. specialize (Hle (j - 1)). nia.
    + destruct Hres as [(Hlt & Hpos & ->)|(-> & Hzero)].
      * assert (HP1 : (0 <? P - 1) = true) by (apply Z.ltb_lt; lia).
        rewrite HP1 in *.
        left. split; [lia|]. split; [nia|]. f_equal; [lia|ring].
      * right. split; [lia|exact Hzero].
Qed.

(** ** Concrete runs (the scenarios of the test suite) *)

Example scenario_A :
  tick (mkPlayerState 1000 None 0 false) byo60 1000
  = mkTickResult
      (mkPlayerState 0 (Some (OTByoyomi (mkByoYomiOvertime 3 30000))) 0 true)
      false true.
Proof. reflexivity. Qed.

Example scenario_B :
  tick (mkPlayerState 500 None 0 false) byo60 1000
  = mkTickResult
      (mkPlayerState 0 (Some (OTByoyomi (mkByoYomiOvertime 3 29500))) 0 true)
      false true.
Proof. reflexivity. Qed.

Example scenario_C :
  tick (mkPlayerState 0 (Some (OTByoyomi (mkByoYomiOvertime 1 1000))) 0 true) byo60 1000
  = mkTickResult
      (mkPlayerState 0 (Some (OTByoyomi (mkByoYomiOvertime 0 0))) 0 true)
      true false.
Proof. reflexivity. Qed.

Example scenario_D :
  onMove (mkPlayerState 50000 None 0 false) fischer60
  = mkPlayerState 60000 None 1 false.
Proof. reflexivity. Qed.

Example scenario_two_periods_in_one_tick :
  tick (mkPlayerState 0 (Some (OTByoyomi (mkByoYomiOvertime 3 1000))) 0 true) byo60 31500
  = mkTickResult
      (mkPlayerState 0 (Some (OTByoyomi (mkByoYomiOvertime 1 29500))) 0 true)
      false false.
Proof. reflexivity. Qed.

Example scenario_fischer_expiry :
  tick (mkPlayerState 1000 None 0 false) fischer60 1000
  = mkTickResult (mkPlayerState 0 None 0 true) true true.
Proof. reflexivity. Qed.

(** ** [tick] *)

(** A tick in main time that leaves main time positive. *)
Lemma tick_main_time (state : PlayerState) (config : TimeControlConfig) (deltaMs : Z) :
  isInOvertime state = false ->
  0 < mainTimeRemainingMs state - deltaMs ->
  tick state config deltaMs
  = {| newState := set_mainTimeRemainingMs (mainTimeRemainingMs state - deltaMs) state;
       expired := false;
       enteredOvertime := false |}.
Proof.
  intros Hio Hpos. unfold tick. rewrite Hio.
  apply Z.leb_gt in Hpos. cbv zeta. rewrite Hpos. reflexivity.
Qed.

(** A tick already in overtime is [tickOvertime]. *)
Lemma tick_in_overtime (state : PlayerState) (config : TimeControlConfig) (deltaMs : Z) :
  isInOvertime state = true ->
  tick state config deltaMs
  = {| newState := fst (tickOvertime state config deltaMs);
       expired := snd (tickOvertime state config deltaMs);
       enteredOvertime := false |}.
Proof. intros Hio. unfold tick. rewrite Hio. reflexivity. Qed.

(** C1, as amended.  [tick(state, config, 0)] returns the input state with
    [expired = false] and [enteredOvertime = false] exactly when the
    running counter has time left: main time is positive when the player
    is not in overtime; in byo-yomi overtime the period time is positive
    and a period remains; in Canadian overtime the overtime time is
    positive.  (Fischer overtime never qualifies; an overtime state of the
    wrong variant is left alone by every branch.) *)
Theorem tick_zero_noop_iff (state : PlayerState) (config : TimeControlConfig) :
  tick state config 0
  = {| newState := state; expired := false; enteredOvertime := false |}
  <-> clockRunning config state = true.
Proof.
  destruct state as [m ot mv io]. unfold clockRunning. cbn [isInOvertime].
  destruct io.
  - rewrite tick_in_overtime by reflexivity.
    unfold tickOvertime. cbn [overtime].
    destruct config as [c|c|c], ot as [[[P R]|[S R]]|];
      cbn [fst snd periodsRemaining periodTimeRemainingMs
           stonesRemaining overtimeRemainingMs];
      try (split; [reflexivity || discriminate | reflexivity || discriminate]).
    + (* byo-yomi *)
      rewrite Z.sub_0_r, consumePeriods_step.
      destruct (periodExpired (mkByoYomiOvertime P R)) eqn:E.
      * apply periodExpired_true in E. cbn in E.
        pose proof (consumePeriods_le (periodTimeSeconds c * 1000)
                      (consumePeriod (periodTimeSeconds c * 1000)
                         (mkByoYomiOvertime P R))) as Hle.
        cbn [consumePeriod periodsRemaining] in Hle.
        split.
        -- destruct (periodsRemaining (consumePeriods _ _) <=? 0);
             cbn [fst snd]; intros H; [discriminate H|].
           injection H as H. rewrite H in Hle. cbn in Hle. lia.
        -- intros H. apply andb_prop in H. destruct H as [H _].
           apply Z.ltb_lt in H. lia.
      * apply periodExpired_false in E. cbn in E. cbn [periodsRemaining].
        destruct (P <=? 0) eqn:EP; cbn [fst snd].
        -- apply Z.leb_le in EP. split; [discriminate|].
           intros H. apply andb_prop in H. destruct H as [_ H].
           apply Z.ltb_lt in H. lia.
        -- apply Z.leb_gt in EP. split; [intros _|reflexivity].
           apply andb_true_intro. rewrite !Z.ltb_lt. lia.
    + (* Canadian *)
      rewrite Z.sub_0_r.
      destruct (R <=? 0) eqn:ER; cbn [fst snd].
      * apply Z.leb_le in ER. split; [discriminate|].
        intros H. apply Z.ltb_lt in H. lia.
      * apply Z.leb_gt in ER. split; [intros _; apply Z.ltb_lt; lia|reflexivity].
  - unfold tick. cbn [isInOvertime mainTimeRemainingMs]. cbv zeta.
    rewrite Z.sub_0_r.
    destruct (m <=? 0) eqn:Em.
    + apply Z.leb_le in Em. split.
      * destruct (overtime _); cbn; discriminate.
      * intros H. apply Z.ltb_lt in H. lia.
    + apply Z.leb_gt in Em. split; [intros _; apply Z.ltb_lt; lia|reflexivity].
Qed.

(** C1, as stated, fails: with no main time left a tick of 0 enters
    overtime, and in Fischer overtime a tick of 0 reports expiry. *)
Lemma tick_zero_not_always_noop :
  let absolute :=
    Byoyomi {| byo_mainTimeSeconds := 0; periods := 3; periodTimeSeconds := 30 |} in
  let fresh := createInitialPlayerState absolute in
  let flagged := newState (tick (createInitialPlayerState fischer60) fischer60 60000) in
  enteredOvertime (tick fresh absolute 0) = true
  /\ newState (tick fresh absolute 0) <> fresh
  /\ expired (tick flagged fischer60 0) = true.
Proof. cbv zeta. split; [reflexivity|]. split; [discriminate|reflexivity]. Qed.

(** The state a tick builds when main time runs out, before the overflow
    is applied. *)
Lemma tick_crossing (state : PlayerState) (config : TimeControlConfig) (deltaMs : Z)
    (ot : OvertimeState) :
  isInOvertime state = false ->
  mainTimeRemainingMs state <= deltaMs ->
  createOvertimeState config = Some ot ->
  let entered :=
    {| mainTimeRemainingMs := 0; overtime := Some ot;
       moves := moves state; isInOvertime := true |} in
  let overflow := deltaMs - mainTimeRemainingMs state in
  tick state config deltaMs
  = {| newState := fst (tickOvertime entered config overflow);
       expired := snd (tickOvertime entered config overflow);
       enteredOvertime := true |}.
Proof.
  intros Hio Hle Hot. cbv zeta. unfold tick. rewrite Hio. cbv zeta.
  assert (E : (mainTimeRemainingMs state - deltaMs <=? 0) = true)
    by (apply Z.leb_le; lia).
  rewrite E. cbn [overtime]. rewrite Hot.
  replace (- (mainTimeRemainingMs state - deltaMs))
    with (deltaMs - mainTimeRemainingMs state) by ring.
  reflexivity.
Qed.

(** C2, as amended.  Not in overtime: (1) while
    [mainTimeRemainingMs - deltaMs > 0] the tick lowers main time by
    exactly [deltaMs], with no overtime entry and no expiry; (2) when
    [deltaMs >= mainTimeRemainingMs] under byo-yomi with a period to spend
    or under Canadian, and the overflow
    [deltaMs - mainTimeRemainingMs] is smaller than the fresh overtime
    counter, the same call enters overtime, does not expire, leaves the
    fresh periods or stones alone and lowers the fresh counter by exactly
    the overflow. *)
Theorem tick_main_time_conservation
    (state : PlayerState) (config : TimeControlConfig) (deltaMs : Z) :
  isInOvertime state = false ->
  (0 < mainTimeRemainingMs state - deltaMs ->
   tick state config deltaMs
   = {| newState :=
          set_mainTimeRemainingMs (mainTimeRemainingMs state - deltaMs) state;
        expired := false;
        enteredOvertime := false |})
  /\ (forall c : ByoYomiConfig,
      config = Byoyomi c ->
      0 < periods c ->
      mainTimeRemainingMs state <= deltaMs ->
      deltaMs - mainTimeRemainingMs state < periodTimeSeconds c * 1000 ->
      tick state config deltaMs
      = {| newState :=
             {| mainTimeRemainingMs := 0;
                overtime :=
                  Some (OTByoyomi
                          {| periodsRemaining := periods c;
                             periodTimeRemainingMs :=
                               periodTimeSeconds c * 1000
                               - (deltaMs - mainTimeRemainingMs state) |});
                moves := moves state;
                isInOvertime := true |};
           expired := false;
           enteredOvertime := true |})
  /\ (forall c : CanadianConfig,
      config = Canadian c ->
      mainTimeRemainingMs state <= deltaMs ->
      deltaMs - mainTimeRemainingMs state < overtimeSeconds c * 1000 ->
      tick state config deltaMs
      = {| newState :=
             {| mainTimeRemainingMs := 0;
                overtime :=
                  Some (OTCanadian
                          {| stonesRemaining := stones c;
                             overtimeRemainingMs :=
                               overtimeSeconds c * 1000
                               - (deltaMs - mainTimeRemainingMs state) |});
                moves := moves state;
                isInOvertime := true |};
           expired := false;
           enteredOvertime := true |}).
Proof.
  intros Hio. split; [apply tick_main_time, Hio|]. split.
  - intros c -> Hper Hle Hfresh.
    rewrite (tick_crossing state (Byoyomi c) deltaMs _ Hio Hle eq_refl).
    unfold tickOvertime.
    cbn [overtime periodsRemaining periodTimeRemainingMs].
    rewrite consumePeriods_step.
    assert (E : periodExpired
                  {| periodsRemaining := periods c;
                     periodTimeRemainingMs :=
                       periodTimeSeconds c * 1000
                       - (deltaMs - mainTimeRemainingMs state) |} = false).
    { apply periodExpired_false. cbn. lia. }
    rewrite E. cbn [periodsRemaining].
    assert (E' : (periods c <=? 0) = false) by (apply Z.leb_gt; lia).
    rewrite E'. reflexivity.
  - intros c -> Hle Hfresh.
    rewrite (tick_crossing state (Canadian c) deltaMs _ Hio Hle eq_refl).
    unfold tickOvertime.
    cbn [overtime stonesRemaining overtimeRemainingMs].
    assert (E : (overtimeSeconds c * 1000
                 - (deltaMs - mainTimeRemainingMs state) <=? 0) = false)
      by (apply Z.leb_gt; lia).
    rewrite E. reflexivity.
Qed.

Lemma tick_main_time_conservation_witness :
  let state := mkPlayerState 500 None 0 false in
  (isInOvertime state = false
   /\ 0 < mainTimeRemainingMs state - 100
   /\ 0 < 3
   /\ mainTimeRemainingMs state <= 1000
   /\ 1000 - mainTimeRemainingMs state < 30 * 1000
   /\ 300000 - mainTimeRemainingMs state < 300 * 1000)
  /\ tick state byo60 100
     = mkTickResult (mkPlayerState 400 None 0 false) false false
  /\ tick state byo60 1000
     = mkTickResult
         (mkPlayerState 0 (Some (OTByoyomi (mkByoYomiOvertime 3 29500))) 0 true)
         false true
  /\ tick state can60 300000
     = mkTickResult
         (mkPlayerState 0 (Some (OTCanadian (mkCanadianOvertime 25 500))) 0 true)
         false true.
Proof.
  cbv zeta. split; [cbn; lia|]. split; [|split].
  - apply (proj1 (tick_main_time_conservation
                    (mkPlayerState 500 None 0 false) byo60 100 eq_refl)).
    cbn; lia.
  - apply (proj1 (proj2 (tick_main_time_conservation
                           (mkPlayerState 500 None 0 false) byo60 1000 eq_refl))
             (mkByoYomiConfig 60 3 30) eq_refl); cbn; lia.
  - apply (proj2 (proj2 (tick_main_time_conservation
                           (mkPlayerState 500 None 0 false) can60 300000 eq_refl))
             (mkCanadianConfig 60 25 300) eq_refl); cbn; lia.
Defined.

(** C2, as stated, fails: an overflow of a full period or more is not
    what the fresh counter loses (byo-yomi moves on to the next period,
    Canadian stops at 0), and a delta equal to the main time left lowers
    the fresh counter by zero. *)
Lemma tick_overflow_not_always_subtracted :
  let state := mkPlayerState 500 None 0 false in
  getDisplayTime (newState (tick state byo60 31000))
    <> freshOvertimeMs byo60 - (31000 - 500)
  /\ getDisplayTime (newState (tick state can60 400000))
       <> freshOvertimeMs can60 - (400000 - 500)
  /\ getDisplayTime (newState (tick state byo60 500)) = freshOvertimeMs byo60 - 0.
Proof. cbv zeta. repeat split; vm_compute; congruence. Qed.

(** The number of periods a byo-yomi tick consumes is determined by three
    clauses: every earlier carried remainder was [<= 0], and the one at
    [k] is positive unless all [P] periods went.  So [k] is the first
    index below [P] at which the carried remainder is positive, and [P]
    if there is none. *)
Lemma periods_consumed_unique (P t period k k' : Z) :
  0 <= k <= P -> 0 <= k' <= P ->
  (forall j, 0 <= j < k -> t + j * period <= 0) ->
  (forall j, 0 <= j < k' -> t + j * period <= 0) ->
  (k < P -> 0 < t + k * period) ->
  (k' < P -> 0 < t + k' * period) ->
  k = k'.
Proof.
  intros Hk Hk' Hle Hle' Hpos Hpos'.
  destruct (Z.lt_trichotomy k k') as [Hlt|[Heq|Hgt]]; [|exact Heq|].
  - specialize (Hle' k). lia.
  - specialize (Hle k'). lia.
Qed.

(** C3.  A tick on a byo-yomi overtime state with [P >= 0] periods and
    [R] milliseconds on the period takes [deltaMs] off [R] and then
    consumes [k] periods, adding one period duration for each.  Every
    period was consumed because the remainder carried so far was [<= 0],
    and [k] is the only number of periods that fits.  When a period is
    left ([k < P]) the state returned holds [P - k] periods and the
    remainder [R - deltaMs + k * period], which is positive, and
    [expired = false]; otherwise all [P] periods went, the state returned
    holds [periodsRemaining = 0] and [periodTimeRemainingMs] clamped to
    0, and [expired = true].  Main time, moves and the overtime flag are
    as they were. *)
Theorem tick_byoyomi_cascade
    (c : ByoYomiConfig) (state : PlayerState) (o : ByoYomiOvertime) (deltaMs : Z) :
  isInOvertime state = true ->
  overtime state = Some (OTByoyomi o) ->
  0 <= periodsRemaining o ->
  let period := periodTimeSeconds c * 1000 in
  let P := periodsRemaining o in
  let R := periodTimeRemainingMs o in
  exists k : Z,
    0 <= k <= P
    /\ (forall j, 0 <= j < k -> R - deltaMs + j * period <= 0)
    /\ (k < P -> 0 < R - deltaMs + k * period)
    /\ (forall k' : Z,
          0 <= k' <= P ->
          (forall j, 0 <= j < k' -> R - deltaMs + j * period <= 0) ->
          (k' < P -> 0 < R - deltaMs + k' * period) ->
          k' = k)
    /\ tick state (Byoyomi c) deltaMs
       = {| newState :=
              {| mainTimeRemainingMs := mainTimeRemainingMs state;
                 overtime :=
                   Some (OTByoyomi
                           (if k <? P then
                              {| periodsRemaining := P - k;
                                 periodTimeRemainingMs :=
                                   R - deltaMs + k * period |}
                            else
                              {| periodsRemaining := 0;
                                 periodTimeRemainingMs := 0 |}));
                 moves := moves state;
                 isInOvertime := true |};
            expired := negb (k <? P);
            enteredOvertime := false |}.
Proof.
  intros Hio Hot HP. cbv zeta.
  rewrite tick_in_overtime by exact Hio.
  unfold tickOvertime. rewrite Hot. cbv zeta.
  destruct (consumePeriods_cascade (periodTimeSeconds c * 1000)
              {| periodsRemaining := periodsRemaining o;
                 periodTimeRemainingMs := periodTimeRemainingMs o - deltaMs |} HP)
    as (k & Hk & Hle & Hres).
  cbn [periodsRemaining periodTimeRemainingMs] in Hk, Hle, Hres.
  assert (Hpos : k < periodsRemaining o ->
                 0 < periodTimeRemainingMs o - deltaMs
                     + k * (periodTimeSeconds c * 1000)).
  { destruct Hres as [(_ & Hpos & _)|(-> & _)]; [intros _; exact Hpos|lia]. }
  exists k. split; [exact Hk|]. split; [exact Hle|]. split; [exact Hpos|].
  split.
  - intros k' Hk' Hle' Hpos'.
    apply (periods_consumed_unique (periodsRemaining o)
             (periodTimeRemainingMs o - deltaMs) (periodTimeSeconds c * 1000));
      assumption.
  - destruct state as [m ot mv io]. cbn in Hio, Hot. subst io ot.
    unfold set_overtime.
    cbn [mainTimeRemainingMs overtime moves isInOvertime].
    destruct Hres as [(Hlt & _ & ->)|(-> & Hzero)].
    + cbn [periodsRemaining].
      assert (E : (periodsRemaining o - k <=? 0) = false) by (apply Z.leb_gt; lia).
      assert (E' : (k <? periodsRemaining o) = true) by (apply Z.ltb_lt; lia).
      rewrite E, E'. reflexivity.
    + rewrite Hzero, Z.ltb_irrefl. reflexivity.
Qed.

Lemma tick_byoyomi_cascade_witness :
  let state := mkPlayerState 0 (Some (OTByoyomi (mkByoYomiOvertime 3 1000))) 7 true in
  (isInOvertime state = true
   /\ overtime state = Some (OTByoyomi (mkByoYomiOvertime 3 1000))
   /\ 0 <= 3)
  /\ tick state byo60 31500
     = mkTickResult
         (mkPlayerState 0 (Some (OTByoyomi (mkByoYomiOvertime 1 29500))) 7 true)
         false false
  /\ tick state byo60 61000
     = mkTickResult
         (mkPlayerState 0 (Some (OTByoyomi (mkByoYomiOvertime 0 0))) 7 true)
         true false.
Proof.
  cbv zeta. split; [repeat split; lia|]. split.
  - pose proof (tick_byoyomi_cascade (mkByoYomiConfig 60 3 30)
                  (mkPlayerState 0 (Some (OTByoyomi (mkByoYomiOvertime 3 1000))) 7 true)
                  (mkByoYomiOvertime 3 1000) 31500 eq_refl eq_refl
                  ltac:(cbn; lia)) as H.
    cbv zeta in H.
    cbn [periodsRemaining periodTimeRemainingMs periodTimeSeconds
         mainTimeRemainingMs moves] in H.
    destruct H as (k & _ & _ & _ & Huniq & Heq).
    assert (Hk : 2 = k).
    { apply Huniq; [lia|intros j Hj; lia|intros _; lia]. }
    subst k. exact Heq.
  - pose proof (tick_byoyomi_cascade (mkByoYomiConfig 60 3 30)
                  (mkPlayerState 0 (Some (OTByoyomi (mkByoYomiOvertime 3 1000))) 7 true)
                  (mkByoYomiOvertime 3 1000) 61000 eq_refl eq_refl
                  ltac:(cbn; lia)) as H.
    cbv zeta in H.
    cbn [periodsRemaining periodTimeRemainingMs periodTimeSeconds
         mainTimeRemainingMs moves] in H.
    destruct H as (k & _ & _ & _ & Huniq & Heq).
    assert (Hk : 3 = k).
    { apply Huniq; [lia|intros j Hj; lia|intros Habs; lia]. }
    subst k. exact Heq.
Defined.

(** C9.  A tick on a Canadian overtime state takes [deltaMs] off
    [overtimeRemainingMs]; a result [<= 0] is clamped to 0 with
    [expired = true]; [stonesRemaining], like every other field, stays as
    it was. *)
Theorem tick_canadian_overtime
    (c : CanadianConfig) (state : PlayerState) (o : CanadianOvertime) (deltaMs : Z) :
  isInOvertime state = true ->
  overtime state = Some (OTCanadian o) ->
  let remaining := overtimeRemainingMs o - deltaMs in
  tick state (Canadian c) deltaMs
  = {| newState :=
         set_overtime
           (Some (OTCanadian
                    {| stonesRemaining := stonesRemaining o;
                       overtimeRemainingMs :=
                         if remaining <=? 0 then 0 else remaining |}))
           state;
       expired := (remaining <=? 0);
       enteredOvertime := false |}.
Proof.
  intros Hio Hot. cbv zeta.
  rewrite tick_in_overtime by exact Hio.
  unfold tickOvertime. rewrite Hot. cbv zeta.
  destruct (overtimeRemainingMs o - deltaMs <=? 0); reflexivity.
Qed.

Lemma tick_canadian_overtime_witness :
  let state := mkPlayerState 0 (Some (OTCanadian (mkCanadianOvertime 10 1000))) 0 true in
  (isInOvertime state = true
   /\ overtime state = Some (OTCanadian (mkCanadianOvertime 10 1000)))
  /\ tick state can60 1000
     = mkTickResult
         (mkPlayerState 0 (Some (OTCanadian (mkCanadianOvertime 10 0))) 0 true)
         true false
  /\ tick state can60 400
     = mkTickResult
         (mkPlayerState 0 (Some (OTCanadian (mkCanadianOvertime 10 600))) 0 true)
         false false.
Proof.
  cbv zeta. split; [split; reflexivity|]. split.
  - apply (tick_canadian_overtime (mkCanadianConfig 60 25 300)
             (mkPlayerState 0 (Some (OTCanadian (mkCanadianOvertime 10 1000))) 0 true)
             (mkCanadianOvertime 10 1000) 1000 eq_refl eq_refl).
  - apply (tick_canadian_overtime (mkCanadianConfig 60 25 300)
             (mkPlayerState 0 (Some (OTCanadian (mkCanadianOvertime 10 1000))) 0 true)
             (mkCanadianOvertime 10 1000) 400 eq_refl eq_refl).
Defined.

(** C10.  Under byo-yomi with [periods = 0], a tick on a state not in
    overtime with [deltaMs >= mainTimeRemainingMs] reports both
    [enteredOvertime] and [expired], and the overtime state it leaves has
    no period and no time. *)
Theorem tick_byoyomi_no_periods
    (c : ByoYomiConfig) (state : PlayerState) (deltaMs : Z) :
  periods c = 0 ->
  isInOvertime state = false ->
  mainTimeRemainingMs state <= deltaMs ->
  tick state (Byoyomi c) deltaMs
  = {| newState :=
         {| mainTimeRemainingMs := 0;
            overtime := Some (OTByoyomi {| periodsRemaining := 0;
                                           periodTimeRemainingMs := 0 |});
            moves := moves state;
            isInOvertime := true |};
       expired := true;
       enteredOvertime := true |}.
Proof.
  intros Hper Hio Hle.
  rewrite (tick_crossing state (Byoyomi c) deltaMs _ Hio Hle eq_refl).
  unfold tickOvertime. cbn [overtime periodsRemaining periodTimeRemainingMs].
  rewrite consumePeriods_step.
  assert (E : periodExpired
                {| periodsRemaining := periods c;
                   periodTimeRemainingMs :=
                     periodTimeSeconds c * 1000
                     - (deltaMs - mainTimeRemainingMs state) |} = false).
  { apply periodExpired_false. cbn. lia. }
  rewrite E. cbn [periodsRemaining]. rewrite Hper. reflexivity.
Qed.

Lemma tick_byoyomi_no_periods_witness :
  let c := mkByoYomiConfig 60 0 30 in
  let state := mkPlayerState 500 None 4 false in
  (periods c = 0 /\ isInOvertime state = false /\ mainTimeRemainingMs state <= 1000)
  /\ tick state (Byoyomi c) 1000
     = mkTickResult
         (mkPlayerState 0 (Some (OTByoyomi (mkByoYomiOvertime 0 0))) 4 true)
         true true.
Proof.
  cbv zeta. split; [cbn; repeat split; lia|].
  apply (tick_byoyomi_no_periods (mkByoYomiConfig 60 0 30)
           (mkPlayerState 500 None 4 false) 1000 eq_refl eq_refl).
  cbn. lia.
Defined.

(** ** [onMove] *)

(** C7.  [onMove] adds exactly 1 to [moves] under every scheme and in
    every state.  Under Fischer it adds [incrementSeconds * 1000] to
    [mainTimeRemainingMs] when [isInOvertime] is false and leaves
    [mainTimeRemainingMs] alone when it is true; [overtime] and
    [isInOvertime] are never touched. *)
Theorem onMove_fischer_frame :
  (forall (state : PlayerState) (config : TimeControlConfig),
     moves (onMove state config) = moves state + 1)
  /\ (forall (state : PlayerState) (c : FischerConfig),
        onMove state (Fischer c)
        = {| mainTimeRemainingMs :=
               if isInOvertime state then mainTimeRemainingMs state
               else mainTimeRemainingMs state + incrementSeconds c * 1000;
             overtime := overtime state;
             moves := moves state + 1;
             isInOvertime := isInOvertime state |}).
Proof.
  split.
  - intros [m ot mv io] config. unfold onMove. cbn.
    destruct config as [c|c|c], io, ot as [[o|o]|]; cbn;
      try reflexivity.
    destruct (stonesRemaining o - 1 <=? 0); reflexivity.
  - intros [m ot mv io] c. unfold onMove. cbn.
    destruct io; reflexivity.
Qed.

(** C8.  On a Canadian overtime state [onMove] takes one stone off.  If
    that leaves [<= 0] stones, the same call puts [stonesRemaining] back
    to [config.stones] and [overtimeRemainingMs] back to
    [config.overtimeSeconds * 1000]; otherwise it stores the lowered
    count and keeps [overtimeRemainingMs]. *)
Theorem onMove_canadian_stones
    (c : CanadianConfig) (state : PlayerState) (o : CanadianOvertime) :
  isInOvertime state = true ->
  overtime state = Some (OTCanadian o) ->
  onMove state (Canadian c)
  = {| mainTimeRemainingMs := mainTimeRemainingMs state;
       overtime :=
         Some (OTCanadian
                 (if stonesRemaining o - 1 <=? 0 then
                    {| stonesRemaining := stones c;
                       overtimeRemainingMs := overtimeSeconds c * 1000 |}
                  else
                    {| stonesRemaining := stonesRemaining o - 1;
                       overtimeRemainingMs := overtimeRemainingMs o |}));
       moves := moves state + 1;
       isInOvertime := true |}.
Proof.
  intros Hio Hot. destruct state as [m ot mv io]. cbn in Hio, Hot. subst.
  unfold onMove. cbn.
  destruct (stonesRemaining o - 1 <=? 0); reflexivity.
Qed.

Lemma onMove_canadian_stones_witness :
  let last := mkPlayerState 0 (Some (OTCanadian (mkCanadianOvertime 1 50000))) 7 true in
  let full := mkPlayerState 0 (Some (OTCanadian (mkCanadianOvertime 25 280000))) 0 true in
  (isInOvertime last = true
   /\ overtime last = Some (OTCanadian (mkCanadianOvertime 1 50000))
   /\ isInOvertime full = true
   /\ overtime full = Some (OTCanadian (mkCanadianOvertime 25 280000)))
  /\ onMove last can60
     = mkPlayerState 0 (Some (OTCanadian (mkCanadianOvertime 25 300000))) 8 true
  /\ onMove full can60
     = mkPlayerState 0 (Some (OTCanadian (mkCanadianOvertime 24 280000))) 1 true.
Proof.
  cbv zeta. split; [repeat split|]. split.
  - apply (onMove_canadian_stones (mkCanadianConfig 60 25 300)
             (mkPlayerState 0 (Some (OTCanadian (mkCanadianOvertime 1 50000))) 7 true)
             (mkCanadianOvertime 1 50000) eq_refl eq_refl).
  - apply (onMove_canadian_stones (mkCanadianConfig 60 25 300)
             (mkPlayerState 0 (Some (OTCanadian (mkCanadianOvertime 25 280000))) 0 true)
             (mkCanadianOvertime 25 280000) eq_refl eq_refl).
Defined.

(** ** The unreachable branch *)

(** The instrumented functions compute what the plain ones do. *)
Lemma tickOvertimeT_fst (state : PlayerState) (config : TimeControlConfig) (deltaMs : Z) :
  fst (tickOvertimeT state config deltaMs) = tickOvertime state config deltaMs.
Proof.
  unfold tickOvertimeT, tickOvertime.
  destruct config as [c|c|c], (overtime state) as [[o|o]|]; cbv zeta;
    try reflexivity.
  - destruct (periodsRemaining _ <=? 0); reflexivity.
  - destruct (overtimeRemainingMs o - deltaMs <=? 0); reflexivity.
Qed.

Lemma tickT_fst (state : PlayerState) (config : TimeControlConfig) (deltaMs : Z) :
  fst (tickT state config deltaMs) = tick state config deltaMs.
Proof.
  unfold tickT, tick.
  destruct (isInOvertime state).
  - rewrite <- tickOvertimeT_fst.
    destruct (tickOvertimeT state config deltaMs); reflexivity.
  - cbv zeta. destruct (mainTimeRemainingMs state - deltaMs <=? 0); [|reflexivity].
    cbn [overtime]. destruct (createOvertimeState config); [|reflexivity].
    rewrite <- tickOvertimeT_fst.
    destruct (tickOvertimeT _ config _); reflexivity.
Qed.

(** The game loop's states are reachable ones. *)
Lemma InPlay_Reachable (config : TimeControlConfig) (state : PlayerState) :
  InPlay config state -> Reachable config state.
Proof.
  induction 1 as [|state deltaMs _ IH Hd _|state _ IH].
  - apply Reachable_init.
  - apply Reachable_tick; assumption.
  - apply Reachable_onMove; assumption.
Qed.

(** Under Fischer a tick that does not expire leaves the player in main
    time, and so does a move. *)
Lemma InPlay_fischer_main_time (c : FischerConfig) (state : PlayerState) :
  InPlay (Fischer c) state -> isInOvertime state = false.
Proof.
  induction 1 as [|state deltaMs _ IH Hd Hexp|state _ IH].
  - reflexivity.
  - revert Hexp. unfold tick. rewrite IH. cbv zeta.
    destruct (mainTimeRemainingMs state - deltaMs <=? 0); cbn.
    + discriminate.
    + intros _. exact IH.
  - destruct state as [m ot mv io]. cbn in IH. subst io. reflexivity.
Qed.

(** C4, as amended.  Under a Fischer configuration, on every state the
    game reaches from the initial one through moves and ticks that did
    not report expiry, [tick] does not run the Fischer branch of
    [tickOvertime]: the player is still in main time and the call runs no
    branch of [tickOvertime] at all.  On the state returned by a tick
    that reported expiry, whatever state that tick started from,
    [isInOvertime] is true and every further tick runs the Fischer
    branch. *)
Theorem fischer_overtime_branch_not_run
    (c : FischerConfig) (state : PlayerState) (deltaMs : Z) :
  (InPlay (Fischer c) state ->
   isInOvertime state = false
   /\ snd (tickT state (Fischer c) deltaMs) = []
   /\ ~ In BranchFischer (snd (tickT state (Fischer c) deltaMs)))
  /\ (expired (tick state (Fischer c) deltaMs) = true ->
      isInOvertime (newState (tick state (Fischer c) deltaMs)) = true
      /\ forall later : Z,
           snd (tickT (newState (tick state (Fischer c) deltaMs)) (Fischer c) later)
           = [BranchFischer]
           /\ In BranchFischer
                (snd (tickT (newState (tick state (Fischer c) deltaMs))
                        (Fischer c) later))).
Proof.
  split.
  - intros Hplay. pose proof (InPlay_fischer_main_time c state Hplay) as Hio.
    assert (Hnil : snd (tickT state (Fischer c) deltaMs) = []).
    { unfold tickT. rewrite Hio. cbv zeta.
      destruct (mainTimeRemainingMs state - deltaMs <=? 0); reflexivity. }
    split; [exact Hio|]. split; [exact Hnil|].
    rewrite Hnil. intros [].
  - intros Hexp.
    assert (Hio : isInOvertime (newState (tick state (Fischer c) deltaMs)) = true).
    { revert Hexp. unfold tick. destruct (isInOvertime state) eqn:E.
      - intros _. cbn [newState]. unfold tickOvertime. cbn [fst]. exact E.
      - cbv zeta. destruct (mainTimeRemainingMs state - deltaMs <=? 0).
        + intros _. reflexivity.
        + discriminate. }
    split; [exact Hio|].
    intros later.
    assert (Hrun : snd (tickT (newState (tick state (Fischer c) deltaMs))
                          (Fischer c) later) = [BranchFischer]).
    { unfold tickT at 1. rewrite Hio. reflexivity. }
    split; [exact Hrun|]. rewrite Hrun. left. reflexivity.
Qed.

Lemma fischer_overtime_branch_not_run_witness :
  let state :=
    onMove (newState (tick (createInitialPlayerState fischer60) fischer60 59000))
      fischer60 in
  (InPlay fischer60 state
   /\ expired (tick state fischer60 11000) = true)
  /\ state = mkPlayerState 11000 None 1 false
  /\ snd (tickT state fischer60 11000) = []
  /\ snd (tickT (newState (tick state fischer60 11000)) fischer60 16)
     = [BranchFischer].
Proof.
  cbv zeta.
  assert (H : InPlay fischer60
                (onMove
                   (newState (tick (createInitialPlayerState fischer60) fischer60 59000))
                   fischer60)).
  { apply InPlay_onMove, InPlay_tick; [apply InPlay_init|lia|reflexivity]. }
  split; [split; [exact H|reflexivity]|]. split; [reflexivity|]. split.
  - exact (proj1 (proj2 (proj1 (fischer_overtime_branch_not_run
                                  (mkFischerConfig 60 10) _ 11000) H))).
  - exact (proj1 (proj2 (proj2 (fischer_overtime_branch_not_run
                                  (mkFischerConfig 60 10)
                                  (onMove
                                     (newState
                                        (tick (createInitialPlayerState fischer60)
                                           fischer60 59000))
                                     fischer60)
                                  11000) eq_refl) 16)).
Defined.

(** C4, as stated, fails: the state an expiring tick returns is reachable
    and flagged [isInOvertime], and a further tick on it runs the Fischer
    branch. *)
Lemma fischer_overtime_branch_reached :
  let flagged := newState (tick (createInitialPlayerState fischer60) fischer60 60000) in
  Reachable fischer60 flagged
  /\ In BranchFischer (snd (tickT flagged fischer60 16)).
Proof.
  cbv zeta. split.
  - apply Reachable_tick; [apply Reachable_init|lia].
  - left. reflexivity.
Qed.

(** ** Invariants *)

(** The loop leaves a byo-yomi overtime state with counts that are not
    negative, and with time on the period whenever a period is left. *)
Lemma consumePeriods_nonneg (periodMs : Z) (ot : ByoYomiOvertime) :
  0 <= periodsRemaining ot ->
  let r := consumePeriods periodMs ot in
  0 <= periodsRemaining r
  /\ (0 < periodsRemaining r -> 0 < periodTimeRemainingMs r).
Proof.
  intros HP. cbv zeta.
  destruct (consumePeriods_cascade periodMs ot HP) as (k & Hk & _ & Hres).
  destruct Hres as [(Hlt & Hpos & ->)|(_ & ->)]; cbn; lia.
Qed.

Lemma tickOvertime_valid (config : TimeControlConfig) (state : PlayerState) (deltaMs : Z) :
  stateValid config state ->
  isInOvertime state = true ->
  stateValid config (fst (tickOvertime state config deltaMs)).
Proof.
  intros (Hm & Hmv & Hot & Hinv) Hio.
  destruct (Hinv Hio) as [Hzero Hmatch].
  destruct state as [m ot mv io]. cbn in *. subst io.
  unfold tickOvertime. cbn [overtime].
  destruct config as [c|c|c], ot as [[[P R]|[S R]]|]; cbn in Hmatch;
    try contradiction; cbn in Hot.
  - cbv zeta. cbn [periodsRemaining periodTimeRemainingMs].
    destruct (consumePeriods_nonneg (periodTimeSeconds c * 1000)
                (mkByoYomiOvertime P (R - deltaMs))) as [Hp Ht]; [cbn; lia|].
    destruct (periodsRemaining (consumePeriods _ _) <=? 0) eqn:E; cbn [fst].
    + unfold stateValid; cbn. repeat split; try lia; trivial.
    + apply Z.leb_gt in E. specialize (Ht E).
      unfold stateValid; cbn. repeat split; try lia; trivial.
  - cbv zeta. cbn [stonesRemaining overtimeRemainingMs].
    destruct (R - deltaMs <=? 0) eqn:E; cbn [fst].
    + unfold stateValid; cbn. repeat split; try lia; trivial.
    + apply Z.leb_gt in E.
      unfold stateValid; cbn. repeat split; try lia; trivial.
  - cbn [fst]. unfold stateValid; cbn. repeat split; try lia; trivial.
Qed.

Lemma tick_valid (config : TimeControlConfig) (state : PlayerState) (deltaMs : Z) :
  configValid config ->
  stateValid config state ->
  stateValid config (newState (tick state config deltaMs)).
Proof.
  intros Hc Hs. unfold tick.
  destruct (isInOvertime state) eqn:Hio.
  - cbn [newState]. apply tickOvertime_valid; assumption.
  - cbv zeta. destruct Hs as (Hm & Hmv & Hot & _).
    destruct (mainTimeRemainingMs state - deltaMs <=? 0) eqn:E.
    + cbn [overtime].
      assert (Hentered : stateValid config
                {| mainTimeRemainingMs := 0;
                   overtime := createOvertimeState config;
                   moves := moves state;
                   isInOvertime := true |}).
      { unfold stateValid; cbn.
        destruct config as [c|c|c]; cbn in Hc |- *;
          repeat split; try lia; trivial. }
      destruct (createOvertimeState config) eqn:Hfresh; cbn [newState].
      * apply tickOvertime_valid; [exact Hentered|reflexivity].
      * exact Hentered.
    + apply Z.leb_gt in E. cbn [newState].
      unfold stateValid, set_mainTimeRemainingMs; cbn.
      rewrite Hio. repeat split; try lia; try assumption; discriminate.
Qed.

Lemma onMove_valid (config : TimeControlConfig) (state : PlayerState) :
  configValid config ->
  stateValid config state ->
  stateValid config (onMove state config).
Proof.
  intros Hc (Hm & Hmv & Hot & Hinv).
  destruct state as [m ot mv io]. cbn in *.
  unfold onMove. cbn.
  destruct io.
  - destruct (Hinv eq_refl) as [-> Hmatch].
    destruct config as [c|c|c], ot as [[[P R]|[S R]]|]; cbn in Hmatch;
      try contradiction; cbn in Hc, Hot |- *.
    + unfold stateValid; cbn. repeat split; try lia; trivial.
    + destruct (S - 1 <=? 0) eqn:E;
        [|apply Z.leb_gt in E];
        unfold stateValid; cbn; repeat split; try lia; trivial.
    + unfold stateValid; cbn. repeat split; try lia; trivial.
  - destruct config as [c|c|c]; cbn in Hc |- *;
      unfold stateValid; cbn; repeat split; try lia; try assumption;
      discriminate.
Qed.

(** C5.  For a configuration that satisfies its constraints and a state
    that satisfies the invariants (main time, moves and every overtime
    counter and count not negative; [isInOvertime] implies main time is 0
    and the overtime state has the variant of the scheme, absent for
    Fischer), the state returned by [tick] with a delta that is not
    negative and the state returned by [onMove] satisfy them again. *)
Theorem stateValid_preserved
    (config : TimeControlConfig) (state : PlayerState) (deltaMs : Z) :
  configValid config ->
  stateValid config state ->
  0 <= deltaMs ->
  stateValid config (newState (tick state config deltaMs))
  /\ stateValid config (onMove state config).
Proof.
  intros Hc Hs _. split; [apply tick_valid|apply onMove_valid]; assumption.
Qed.

Lemma stateValid_preserved_witness :
  let state := mkPlayerState 0 (Some (OTByoyomi (mkByoYomiOvertime 3 1000))) 12 true in
  (configValid byo60 /\ stateValid byo60 state /\ 0 <= 31500)
  /\ stateValid byo60 (newState (tick state byo60 31500))
  /\ stateValid byo60 (onMove state byo60).
Proof.
  cbv zeta.
  assert (Hc : configValid byo60) by (cbn; lia).
  assert (Hs : stateValid byo60
                 (mkPlayerState 0 (Some (OTByoyomi (mkByoYomiOvertime 3 1000))) 12 true)).
  { unfold stateValid; cbn. repeat split; try lia; trivial. }
  assert (Hd : 0 <= 31500) by lia.
  split; [split; [exact Hc|split; [exact Hs|exact Hd]]|].
  exact (stateValid_preserved byo60 _ 31500 Hc Hs Hd).
Defined.

(** The initial state of a valid configuration satisfies the invariants,
    so every reachable state does. *)
Lemma Reachable_valid (config : TimeControlConfig) (state : PlayerState) :
  configValid config -> Reachable config state -> stateValid config state.
Proof.
  intros Hc. induction 1 as [|state deltaMs _ IH Hd|state _ IH].
  - unfold stateValid, createInitialPlayerState; cbn.
    destruct config as [c|c|c]; cbn in Hc |- *;
      repeat split; try lia; trivial; discriminate.
  - apply tick_valid; assumption.
  - apply onMove_valid; assumption.
Qed.

(** ** [formatTime] *)

(** [Math.ceil(a / b)] and [Math.floor(a / b)] on integers, in integer
    arithmetic. *)
Lemma Math_floor_div (a b : Z) :
  JS.Math_floor (inject_Z a / inject_Z b) = a / b.
Proof. unfold JS.Math_floor. symmetry. apply Zdiv_Qdiv. Qed.

Lemma Math_ceil_div (a b : Z) :
  JS.Math_ceil (inject_Z a / inject_Z b) = - ((- a) / b).
Proof.
  unfold JS.Math_ceil, Qceiling. f_equal.
  rewrite Zdiv_Qdiv. apply Qfloor_comp.
  rewrite inject_Z_opp. unfold Qdiv. ring.
Qed.

(** [totalSeconds] is the number of whole seconds, rounded up and never
    negative. *)
Lemma totalSeconds_ceil (ms : Z) :
  let t := totalSeconds ms in
  0 <= t
  /\ (ms <= 0 -> t = 0)
  /\ (0 < ms -> 1000 * (t - 1) < ms <= 1000 * t).
Proof.
  cbv zeta. unfold totalSeconds, JS.Math_max. rewrite Math_ceil_div.
  pose proof (Z.div_mod (- ms) 1000 ltac:(lia)) as Hdm.
  pose proof (Z.mod_pos_bound (- ms) 1000 ltac:(lia)) as Hb.
  repeat split; lia.
Qed.

(** The characters of the numbers below 100, by enumeration. *)
Lemma padStart_twoDigits_table :
  forallb
    (fun n => String.eqb (JS.padStart (JS.toString n) 2 "0") (Spec.twoDigits n))
    (map Z.of_nat (seq 0 100)) = true.
Proof. vm_compute. reflexivity. Qed.

Lemma padStart_twoDigits (n : Z) :
  0 <= n < 100 ->
  JS.padStart (JS.toString n) 2 "0" = Spec.twoDigits n.
Proof.
  intros Hn. apply String.eqb_eq.
  apply (proj1 (forallb_forall _ _) padStart_twoDigits_table).
  rewrite <- (Z2Nat.id n) by lia.
  apply in_map, in_seq. lia.
Qed.

(** C6.  For every integer [ms], [formatTime ms] is the rendering of
    [t = max(0, ceil(ms / 1000))] seconds: [t] is not negative, is 0 when
    [ms <= 0] and is otherwise the one integer with
    [1000 * (t - 1) < ms <= 1000 * t]; it is printed [H:MM:SS] when it has
    hours and [M:SS] otherwise, minutes after hours and seconds always on
    two digits, the leading field as it is.  The six listed values come
    out as listed. *)
Theorem formatTime_contract :
  (forall ms : Z,
     let t := totalSeconds ms in
     (0 <= t
      /\ (ms <= 0 -> t = 0)
      /\ (0 < ms -> 1000 * (t - 1) < ms <= 1000 * t))
     /\ formatTime ms = Spec.renderSeconds t)
  /\ formatTime 0 = "0:00"%string
  /\ formatTime (-5000) = "0:00"%string
  /\ formatTime 999 = "0:01"%string
  /\ formatTime 1001 = "0:02"%string
  /\ formatTime 3599000 = "59:59"%string
  /\ formatTime 3600000 = "1:00:00"%string.
Proof.
  split; [|repeat split; vm_compute; reflexivity].
  intros ms. cbv zeta. split; [apply totalSeconds_ceil|].
  destruct (totalSeconds_ceil ms) as [Ht _].
  unfold formatTime, Spec.renderSeconds, JS.rem. cbv zeta.
  set (t := totalSeconds ms) in *.
  rewrite !Math_floor_div.
  rewrite !Z.rem_mod_nonneg by lia.
  assert (Hm : 0 <= t mod 3600 / 60 < 100).
  { pose proof (Z.mod_pos_bound t 3600 ltac:(lia)).
    split; [apply Z.div_pos; lia|].
    apply Z.div_lt_upper_bound; lia. }
  assert (Hs : 0 <= t mod 60 < 100).
  { pose proof (Z.mod_pos_bound t 60 ltac:(lia)). lia. }
  rewrite (padStart_twoDigits _ Hm), (padStart_twoDigits _ Hs).
  reflexivity.
Qed.

Example formatTime_tests :
  formatTime 30000 = "0:30"%string
  /\ formatTime 600000 = "10:00"%string
  /\ formatTime 3661000 = "1:01:01"%string
  /\ formatTime 7200000 = "2:00:00"%string
  /\ formatTime 1500 = "0:02"%string
  /\ formatTime (-1000) = "0:00"%string.
Proof. repeat split; vm_compute; reflexivity. Qed.

Example padStart_cycles : JS.padStart "7" 6 "ab" = "ababa7"%string.
Proof. reflexivity. Qed.

(** * Further properties of the engine *)

(** ** Closed forms of [tickOvertime] *)

Lemma set_overtime_twice (a b : option OvertimeState) (state : PlayerState) :
  set_overtime a (set_overtime b state) = set_overtime a state.
Proof. reflexivity. Qed.

(** The loop stops with its guard false. *)
Lemma consumePeriods_exit (periodMs : Z) (ot : ByoYomiOvertime) :
  periodExpired (consumePeriods periodMs ot) = false.
Proof.
  apply (consumePeriods_rel periodMs (fun _ r => periodExpired r = false)).
  - intros a E. exact E.
  - intros a r _ H. exact H.
Qed.

(** Byo-yomi overtime with no period left: the tick reports expiry and
    zeroes the period time. *)
Lemma tickOvertime_byoyomi_spent
    (c : ByoYomiConfig) (state : PlayerState) (o : ByoYomiOvertime) (deltaMs : Z) :
  overtime state = Some (OTByoyomi o) ->
  periodsRemaining o <= 0 ->
  tickOvertime state (Byoyomi c) deltaMs
  = (set_overtime
       (Some (OTByoyomi {| periodsRemaining := periodsRemaining o;
                           periodTimeRemainingMs := 0 |})) state,
     true).
Proof.
  intros Hot HP. unfold tickOvertime. rewrite Hot. cbv zeta.
  rewrite consumePeriods_step.
  assert (E : periodExpired
                {| periodsRemaining := periodsRemaining o;
                   periodTimeRemainingMs := periodTimeRemainingMs o - deltaMs |}
              = false) by (apply periodExpired_false; cbn; lia).
  rewrite E. cbn [periodsRemaining].
  assert (E' : (periodsRemaining o <=? 0) = true) by (apply Z.leb_le; lia).
  rewrite E'. reflexivity.
Qed.

(** Byo-yomi overtime with [P >= 0] periods: the result in terms of the
    number [k] of periods consumed. *)
Lemma tickOvertime_byoyomi
    (c : ByoYomiConfig) (state : PlayerState) (o : ByoYomiOvertime) (deltaMs : Z) :
  overtime state = Some (OTByoyomi o) ->
  0 <= periodsRemaining o ->
  exists k : Z,
    0 <= k <= periodsRemaining o
    /\ (forall j, 0 <= j < k ->
          periodTimeRemainingMs o - deltaMs + j * (periodTimeSeconds c * 1000) <= 0)
    /\ (k < periodsRemaining o ->
          0 < periodTimeRemainingMs o - deltaMs + k * (periodTimeSeconds c * 1000))
    /\ tickOvertime state (Byoyomi c) deltaMs
       = (set_overtime
            (Some (OTByoyomi
                     (if k <? periodsRemaining o then
                        {| periodsRemaining := periodsRemaining o - k;
                           periodTimeRemainingMs :=
                             periodTimeRemainingMs o - deltaMs
                             + k * (periodTimeSeconds c * 1000) |}
                      else
                        {| periodsRemaining := 0; periodTimeRemainingMs := 0 |})))
            state,
          negb (k <? periodsRemaining o)).
Proof.
  intros Hot HP.
  unfold tickOvertime. rewrite Hot. cbv zeta.
  destruct (consumePeriods_cascade (periodTimeSeconds c * 1000)
              {| periodsRemaining := periodsRemaining o;
                 periodTimeRemainingMs := periodTimeRemainingMs o - deltaMs |} HP)
    as (k & Hk & Hle & Hres).
  cbn [periodsRemaining periodTimeRemainingMs] in Hk, Hle, Hres.
  exists k. split; [exact Hk|]. split; [exact Hle|].
  destruct Hres as [(Hlt & Hpos & ->)|(-> & Hzero)].
  - split; [intros _; exact Hpos|].
    cbn [periodsRemaining].
    assert (E : (periodsRemaining o - k <=? 0) = false) by (apply Z.leb_gt; lia).
    assert (E' : (k <? periodsRemaining o) = true) by (apply Z.ltb_lt; lia).
    rewrite E, E'. reflexivity.
  - split; [intros Habs; lia|].
    rewrite Hzero, Z.ltb_irrefl. reflexivity.
Qed.

(** ** Splitting a delta *)

(** An overtime tick of [d1] followed by one of [d2 >= 0] is an overtime
    tick of [d1 + d2]. *)
Lemma tickOvertime_additive
    (state : PlayerState) (config : TimeControlConfig) (d1 d2 : Z) :
  0 <= d2 ->
  tickOvertime (fst (tickOvertime state config d1)) config d2
  = tickOvertime state config (d1 + d2).
Proof.
  intros Hd2.
  destruct config as [c|c|c];
    destruct (overtime state) as [[o|o]|] eqn:Hot;
    try (unfold tickOvertime; rewrite Hot; cbn [fst]; rewrite Hot; reflexivity);
    try (unfold tickOvertime; reflexivity).
  - (* byo-yomi *)
    destruct (Z_le_gt_dec (periodsRemaining o) 0) as [HP|HP].
    + rewrite (tickOvertime_byoyomi_spent c state o d1 Hot HP). cbn [fst].
      rewrite (tickOvertime_byoyomi_spent c _
                 {| periodsRemaining := periodsRemaining o;
                    periodTimeRemainingMs := 0 |} d2);
        [|reflexivity|cbn; lia].
      rewrite (tickOvertime_byoyomi_spent c state o (d1 + d2) Hot HP).
      reflexivity.
    + destruct (tickOvertime_byoyomi c state o d1 Hot ltac:(lia))
        as (k1 & Hk1 & Hle1 & Hpos1 & ->).
      destruct (tickOvertime_byoyomi c state o (d1 + d2) Hot ltac:(lia))
        as (k & Hk & Hle & Hpos & ->).
      cbn [fst].
      destruct (k1 <? periodsRemaining o) eqn:E1.
      * apply Z.ltb_lt in E1. specialize (Hpos1 E1).
        destruct (tickOvertime_byoyomi c
                    (set_overtime
                       (Some (OTByoyomi
                                {| periodsRemaining := periodsRemaining o - k1;
                                   periodTimeRemainingMs :=
                                     periodTimeRemainingMs o - d1
                                     + k1 * (periodTimeSeconds c * 1000) |}))
                       state)
                    {| periodsRemaining := periodsRemaining o - k1;
                       periodTimeRemainingMs :=
                         periodTimeRemainingMs o - d1
                         + k1 * (periodTimeSeconds c * 1000) |}
                    d2 eq_refl ltac:(cbn; lia))
          as (k2 & Hk2 & Hle2 & Hpos2 & ->).
        cbn [periodsRemaining periodTimeRemainingMs] in Hk2, Hle2, Hpos2 |- *.
        assert (Hsum : k = k1 + k2).
        { apply (periods_consumed_unique (periodsRemaining o)
                   (periodTimeRemainingMs o - (d1 + d2))
                   (periodTimeSeconds c * 1000));
            [lia|lia|exact Hle| |exact Hpos| ].
          - intros j Hj.
            destruct (Z_lt_ge_dec j k1) as [Hlt|Hge].
            + specialize (Hle1 j ltac:(lia)). lia.
            + specialize (Hle2 (j - k1) ltac:(lia)). lia.
          - intros Hlt. specialize (Hpos2 ltac:(lia)). lia. }
        subst k. rewrite set_overtime_twice.
        destruct (k2 <? periodsRemaining o - k1) eqn:E2.
        -- apply Z.ltb_lt in E2.
           assert (E : (k1 + k2 <? periodsRemaining o) = true)
             by (apply Z.ltb_lt; lia).
           rewrite E. cbn [negb].
           replace (periodsRemaining o - k1 - k2)
             with (periodsRemaining o - (k1 + k2)) by ring.
           replace (periodTimeRemainingMs o - d1
                    + k1 * (periodTimeSeconds c * 1000) - d2
                    + k2 * (periodTimeSeconds c * 1000))
             with (periodTimeRemainingMs o - (d1 + d2)
                   + (k1 + k2) * (periodTimeSeconds c * 1000)) by ring.
           reflexivity.
        -- apply Z.ltb_ge in E2.
           assert (E : (k1 + k2 <? periodsRemaining o) = false)
             by (apply Z.ltb_ge; lia).
           rewrite E. reflexivity.
      * apply Z.ltb_ge in E1.
        rewrite (tickOvertime_byoyomi_spent c _
                   {| periodsRemaining := 0; periodTimeRemainingMs := 0 |} d2);
          [|reflexivity|cbn; lia].
        cbn [periodsRemaining]. rewrite set_overtime_twice.
        assert (Hall : k = periodsRemaining o).
        { destruct (Z.eq_dec k (periodsRemaining o)) as [|Hne]; [assumption|].
          specialize (Hpos ltac:(lia)). specialize (Hle1 k ltac:(lia)). lia. }
        rewrite Hall, Z.ltb_irrefl. reflexivity.
  - (* Canadian *)
    unfold tickOvertime. rewrite Hot. cbv zeta.
    destruct (overtimeRemainingMs o - d1 <=? 0) eqn:E1; cbn [fst overtime set_overtime
      stonesRemaining overtimeRemainingMs].
    + apply Z.leb_le in E1.
      assert (E : (0 - d2 <=? 0) = true) by (apply Z.leb_le; lia).
      assert (E' : (overtimeRemainingMs o - (d1 + d2) <=? 0) = true)
        by (apply Z.leb_le; lia).
      rewrite E, E'. reflexivity.
    + replace (overtimeRemainingMs o - (d1 + d2))
        with (overtimeRemainingMs o - d1 - d2) by ring.
      destruct (overtimeRemainingMs o - d1 - d2 <=? 0); reflexivity.
Qed.

Lemma tickOvertime_isInOvertime
    (state : PlayerState) (config : TimeControlConfig) (deltaMs : Z) :
  isInOvertime (fst (tickOvertime state config deltaMs)) = isInOvertime state.
Proof.
  unfold tickOvertime.
  destruct config as [c|c|c], (overtime state) as [[o|o]|]; cbv zeta;
    try reflexivity.
  - destruct (periodsRemaining _ <=? 0); reflexivity.
  - destruct (overtimeRemainingMs o - deltaMs <=? 0); reflexivity.
Qed.

(** Main time runs out under a scheme without overtime state. *)
Lemma tick_crossing_none
    (state : PlayerState) (config : TimeControlConfig) (deltaMs : Z) :
  isInOvertime state = false ->
  mainTimeRemainingMs state <= deltaMs ->
  createOvertimeState config = None ->
  tick state config deltaMs
  = {| newState :=
         {| mainTimeRemainingMs := 0; overtime := None;
            moves := moves state; isInOvertime := true |};
       expired := true;
       enteredOvertime := true |}.
Proof.
  intros Hio Hle Hfresh. unfold tick. rewrite Hio. cbv zeta.
  assert (E : (mainTimeRemainingMs state - deltaMs <=? 0) = true)
    by (apply Z.leb_le; lia).
  rewrite E. cbn [overtime]. rewrite Hfresh. reflexivity.
Qed.

(** X1.  On whole milliseconds sampling does not matter.  When the times
    of the state and the configuration and both deltas are integers (on
    which the additions, subtractions and comparisons of the code are
    exact), a tick of [d1] followed by a tick of [d2 >= 0] leaves the
    state, and reports the expiry, of one tick of [d1 + d2]; the single
    tick reports [enteredOvertime] when either of the two does.  The
    statement is about integer values only: it compares two runs, and on
    fractional deltas each run rounds on its own. *)
Theorem tick_split_delta
    (state : PlayerState) (config : TimeControlConfig) (d1 d2 : Z) :
  0 <= d2 ->
  let first := tick state config d1 in
  let second := tick (newState first) config d2 in
  let whole := tick state config (d1 + d2) in
  newState second = newState whole
  /\ expired second = expired whole
  /\ enteredOvertime whole = enteredOvertime first || enteredOvertime second.
Proof.
  intros Hd2. cbv zeta.
  destruct (isInOvertime state) eqn:Hio.
  - rewrite (tick_in_overtime state config d1 Hio).
    rewrite (tick_in_overtime state config (d1 + d2) Hio).
    cbn [newState expired enteredOvertime].
    rewrite tick_in_overtime
      by (rewrite tickOvertime_isInOvertime; exact Hio).
    cbn [newState expired enteredOvertime].
    rewrite tickOvertime_additive by exact Hd2.
    repeat split.
  - destruct (Z_lt_le_dec 0 (mainTimeRemainingMs state - d1)) as [Hpos|Hle].
    + rewrite (tick_main_time state config d1 Hio Hpos).
      cbn [newState expired enteredOvertime orb].
      unfold tick. cbn [isInOvertime set_mainTimeRemainingMs mainTimeRemainingMs
                        overtime moves].
      rewrite Hio. cbv zeta.
      replace (mainTimeRemainingMs state - (d1 + d2))
        with (mainTimeRemainingMs state - d1 - d2) by ring.
      repeat split.
    + assert (Hle1 : mainTimeRemainingMs state <= d1) by lia.
      assert (Hle2 : mainTimeRemainingMs state <= d1 + d2) by lia.
      destruct (createOvertimeState config) as [ot|] eqn:Hfresh.
      * rewrite (tick_crossing state config d1 ot Hio Hle1 Hfresh).
        rewrite (tick_crossing state config (d1 + d2) ot Hio Hle2 Hfresh).
        cbn [newState expired enteredOvertime orb].
        rewrite tick_in_overtime by (rewrite tickOvertime_isInOvertime; reflexivity).
        cbn [newState expired enteredOvertime].
        rewrite tickOvertime_additive by exact Hd2.
        replace (d1 - mainTimeRemainingMs state + d2)
          with (d1 + d2 - mainTimeRemainingMs state) by ring.
        repeat split.
      * rewrite (tick_crossing_none state config d1 Hio Hle1 Hfresh).
        rewrite (tick_crossing_none state config (d1 + d2) Hio Hle2 Hfresh).
        cbn [newState expired enteredOvertime orb].
        rewrite tick_in_overtime by reflexivity.
        cbn [newState expired enteredOvertime].
        destruct config as [c|c|c]; try discriminate Hfresh.
        unfold tickOvertime. repeat split.
Qed.

Lemma tick_split_delta_witness :
  let state := mkPlayerState 500 None 0 false in
  0 <= 60400
  /\ tick state byo60 1000
     = mkTickResult
         (mkPlayerState 0 (Some (OTByoyomi (mkByoYomiOvertime 3 29500))) 0 true)
         false true
  /\ newState (tick (newState (tick state byo60 1000)) byo60 60400)
     = newState (tick state byo60 (1000 + 60400))
  /\ newState (tick state byo60 (1000 + 60400))
     = mkPlayerState 0 (Some (OTByoyomi (mkByoYomiOvertime 1 29100))) 0 true.
Proof.
  cbv zeta. split; [lia|]. split; [reflexivity|]. split; [|reflexivity].
  exact (proj1 (tick_split_delta (mkPlayerState 500 None 0 false) byo60 1000 60400
                  ltac:(lia))).
Defined.

(** ** Expiry *)

(** An overtime tick that reports expiry leaves a state on which every
    later tick reports it again and changes nothing. *)
Lemma tickOvertime_after_expiry
    (state : PlayerState) (config : TimeControlConfig) (d d' : Z) :
  snd (tickOvertime state config d) = true ->
  0 <= d' ->
  tickOvertime (fst (tickOvertime state config d)) config d'
  = (fst (tickOvertime state config d), true).
Proof.
  intros Hexp Hd'. revert Hexp.
  unfold tickOvertime at 1 3 4.
  destruct config as [c|c|c];
    destruct (overtime state) as [[o|o]|] eqn:Hot; cbv zeta; cbn [fst snd];
    try discriminate; try (intros _; reflexivity).
  - destruct (periodsRemaining (consumePeriods _ _) <=? 0) eqn:E;
      cbn [fst snd]; [intros _|discriminate].
    apply Z.leb_le in E.
    rewrite (tickOvertime_byoyomi_spent c _
               {| periodsRemaining :=
                    periodsRemaining
                      (consumePeriods (periodTimeSeconds c * 1000)
                         {| periodsRemaining := periodsRemaining o;
                            periodTimeRemainingMs :=
                              periodTimeRemainingMs o - d |});
                  periodTimeRemainingMs := 0 |} d');
      [reflexivity|reflexivity|exact E].
  - destruct (overtimeRemainingMs o - d <=? 0) eqn:E;
      cbn [fst snd]; [intros _|discriminate].
    unfold tickOvertime. cbn [overtime set_overtime stonesRemaining
                              overtimeRemainingMs].
    assert (E' : (0 - d' <=? 0) = true) by (apply Z.leb_le; lia).
    rewrite E'. reflexivity.
Qed.

(** X2.  Expiry is final for the clock: after a tick that reported
    [expired], every further tick (with a delta that is not negative)
    returns the same state, reports [expired] again and never reports
    [enteredOvertime]. *)
Theorem tick_after_expiry
    (state : PlayerState) (config : TimeControlConfig) (d d' : Z) :
  expired (tick state config d) = true ->
  0 <= d' ->
  tick (newState (tick state config d)) config d'
  = {| newState := newState (tick state config d);
       expired := true;
       enteredOvertime := false |}.
Proof.
  intros Hexp Hd'.
  destruct (isInOvertime state) eqn:Hio.
  - rewrite (tick_in_overtime state config d Hio) in Hexp |- *.
    cbn [newState expired] in Hexp |- *.
    rewrite tick_in_overtime by (rewrite tickOvertime_isInOvertime; exact Hio).
    rewrite (tickOvertime_after_expiry state config d d' Hexp Hd').
    reflexivity.
  - destruct (Z_lt_le_dec 0 (mainTimeRemainingMs state - d)) as [Hpos|Hle].
    + rewrite (tick_main_time state config d Hio Hpos) in Hexp.
      discriminate Hexp.
    + assert (Hle' : mainTimeRemainingMs state <= d) by lia.
      destruct (createOvertimeState config) as [ot|] eqn:Hfresh.
      * rewrite (tick_crossing state config d ot Hio Hle' Hfresh) in Hexp |- *.
        cbn [newState expired] in Hexp |- *.
        rewrite tick_in_overtime
          by (rewrite tickOvertime_isInOvertime; reflexivity).
        rewrite (tickOvertime_after_expiry _ config _ d' Hexp Hd').
        reflexivity.
      * rewrite (tick_crossing_none state config d Hio Hle' Hfresh).
        cbn [newState]. rewrite tick_in_overtime by reflexivity.
        destruct config as [c|c|c]; try discriminate Hfresh.
        reflexivity.
Qed.

Lemma tick_after_expiry_witness :
  let state := mkPlayerState 0 (Some (OTCanadian (mkCanadianOvertime 10 1000))) 3 true in
  (expired (tick state can60 1000) = true /\ 0 <= 16)
  /\ tick (newState (tick state can60 1000)) can60 16
     = mkTickResult
         (mkPlayerState 0 (Some (OTCanadian (mkCanadianOvertime 10 0))) 3 true)
         true false.
Proof.
  cbv zeta. split; [split; [reflexivity|lia]|].
  exact (tick_after_expiry
           (mkPlayerState 0 (Some (OTCanadian (mkCanadianOvertime 10 1000))) 3 true)
           can60 1000 16 eq_refl ltac:(lia)).
Defined.

(** In overtime with the matching variant, expiry and the displayed time
    go together. *)
Lemma tickOvertime_display
    (state : PlayerState) (config : TimeControlConfig) (deltaMs : Z) :
  isInOvertime state = true ->
  mainTimeRemainingMs state = 0 ->
  overtimeMatches config (overtime state) ->
  let r := tickOvertime state config deltaMs in
  (snd r = true -> getDisplayTime (fst r) = 0)
  /\ (snd r = false -> 0 < getDisplayTime (fst r)).
Proof.
  intros Hio Hmain Hmatch. cbv zeta.
  destruct state as [m ot mv io]. cbn in Hio, Hmain, Hmatch. subst io m.
  unfold tickOvertime. cbn [overtime].
  destruct config as [c|c|c], ot as [[o|o]|]; cbn in Hmatch; try contradiction.
  - cbv zeta.
    pose proof (consumePeriods_exit (periodTimeSeconds c * 1000)
                  {| periodsRemaining := periodsRemaining o;
                     periodTimeRemainingMs := periodTimeRemainingMs o - deltaMs |})
      as Hexit.
    apply periodExpired_false in Hexit.
    destruct (periodsRemaining (consumePeriods _ _) <=? 0) eqn:E;
      cbn [fst snd]; unfold getDisplayTime; cbn.
    + split; [reflexivity|discriminate].
    + apply Z.leb_gt in E. split; [discriminate|intros _; lia].
  - cbv zeta.
    destruct (overtimeRemainingMs o - deltaMs <=? 0) eqn:E;
      cbn [fst snd]; unfold getDisplayTime; cbn.
    + split; [reflexivity|discriminate].
    + apply Z.leb_gt in E. split; [discriminate|intros _; lia].
  - cbn [fst snd]. unfold getDisplayTime; cbn.
    split; [reflexivity|discriminate].
Qed.

Lemma tick_display
    (state : PlayerState) (config : TimeControlConfig) (deltaMs : Z) :
  stateValid config state ->
  (expired (tick state config deltaMs) = true ->
   getDisplayTime (newState (tick state config deltaMs)) = 0)
  /\ (expired (tick state config deltaMs) = false ->
      0 < getDisplayTime (newState (tick state config deltaMs))).
Proof.
  intros (Hm & Hmv & Hot & Hinv).
  destruct (isInOvertime state) eqn:Hio.
  - rewrite (tick_in_overtime state config deltaMs Hio).
    cbn [newState expired].
    destruct (Hinv eq_refl) as [Hzero Hmatch].
    apply tickOvertime_display; assumption.
  - destruct (Z_lt_le_dec 0 (mainTimeRemainingMs state - deltaMs)) as [Hpos|Hle].
    + rewrite (tick_main_time state config deltaMs Hio Hpos).
      cbn [newState expired]. unfold getDisplayTime.
      cbn [isInOvertime set_mainTimeRemainingMs mainTimeRemainingMs].
      rewrite Hio. cbn [negb]. split; [discriminate|intros _; exact Hpos].
    + assert (Hle' : mainTimeRemainingMs state <= deltaMs) by lia.
      destruct (createOvertimeState config) as [ot|] eqn:Hfresh.
      * rewrite (tick_crossing state config deltaMs ot Hio Hle' Hfresh).
        cbn [newState expired].
        apply tickOvertime_display; [reflexivity|reflexivity|].
        cbn [overtime].
        destruct config as [c|c|c]; cbn in Hfresh;
          inversion Hfresh; exact I.
      * rewrite (tick_crossing_none state config deltaMs Hio Hle' Hfresh).
        cbn [newState expired]. unfold getDisplayTime; cbn.
        split; [reflexivity|discriminate].
Qed.

(** X3.  What the display shows after a tick: on a state that satisfies
    the invariants, a tick that reports [expired] leaves
    [getDisplayTime] at 0, and a tick that does not leaves it
    positive. *)
Theorem tick_expired_display
    (state : PlayerState) (config : TimeControlConfig) (deltaMs : Z) :
  stateValid config state ->
  let r := tick state config deltaMs in
  (expired r = true -> getDisplayTime (newState r) = 0)
  /\ (expired r = false -> 0 < getDisplayTime (newState r)).
Proof. intros Hs. cbv zeta. apply tick_display, Hs. Qed.

Lemma tick_expired_display_witness :
  let state := mkPlayerState 0 (Some (OTByoyomi (mkByoYomiOvertime 1 1000))) 0 true in
  stateValid byo60 state
  /\ (expired (tick state byo60 1000) = true
      /\ getDisplayTime (newState (tick state byo60 1000)) = 0)
  /\ (expired (tick state byo60 400) = false
      /\ 0 < getDisplayTime (newState (tick state byo60 400))).
Proof.
  cbv zeta.
  assert (Hs : stateValid byo60
                 (mkPlayerState 0 (Some (OTByoyomi (mkByoYomiOvertime 1 1000))) 0 true)).
  { unfold stateValid; cbn. repeat split; try lia; trivial. }
  split; [exact Hs|]. split.
  - split; [reflexivity|].
    exact (proj1 (tick_expired_display _ byo60 1000 Hs) eq_refl).
  - split; [reflexivity|].
    exact (proj2 (tick_expired_display _ byo60 400 Hs) eq_refl).
Defined.

(** Fields a tick and a move leave alone. *)
Lemma tickOvertime_fields
    (state : PlayerState) (config : TimeControlConfig) (deltaMs : Z) :
  moves (fst (tickOvertime state config deltaMs)) = moves state
  /\ mainTimeRemainingMs (fst (tickOvertime state config deltaMs))
     = mainTimeRemainingMs state.
Proof.
  unfold tickOvertime.
  destruct config as [c|c|c], (overtime state) as [[o|o]|]; cbv zeta;
    try (split; reflexivity).
  - destruct (periodsRemaining _ <=? 0); split; reflexivity.
  - destruct (overtimeRemainingMs o - deltaMs <=? 0); split; reflexivity.
Qed.

Lemma tick_moves (state : PlayerState) (config : TimeControlConfig) (deltaMs : Z) :
  moves (newState (tick state config deltaMs)) = moves state.
Proof.
  unfold tick. destruct (isInOvertime state).
  - cbn [newState]. apply tickOvertime_fields.
  - cbv zeta. destruct (mainTimeRemainingMs state - deltaMs <=? 0);
      [|reflexivity].
    cbn [overtime]. destruct (createOvertimeState config); [|reflexivity].
    cbn [newState]. rewrite (proj1 (tickOvertime_fields _ _ _)). reflexivity.
Qed.

(** The flag [isInOvertime] after a tick: it was set before, or the tick
    reports [enteredOvertime]. *)
Lemma tick_isInOvertime (state : PlayerState) (config : TimeControlConfig) (deltaMs : Z) :
  isInOvertime (newState (tick state config deltaMs))
  = isInOvertime state || enteredOvertime (tick state config deltaMs).
Proof.
  unfold tick. destruct (isInOvertime state) eqn:Hio.
  - cbn [newState enteredOvertime]. rewrite tickOvertime_isInOvertime, Hio.
    reflexivity.
  - cbv zeta. destruct (mainTimeRemainingMs state - deltaMs <=? 0).
    + cbn [overtime]. destruct (createOvertimeState config);
        cbn [newState enteredOvertime]; [|reflexivity].
      rewrite tickOvertime_isInOvertime. reflexivity.
    + cbn [newState enteredOvertime isInOvertime set_mainTimeRemainingMs].
      rewrite Hio. reflexivity.
Qed.

Lemma tick_enteredOvertime_main (state : PlayerState) (config : TimeControlConfig)
    (deltaMs : Z) :
  enteredOvertime (tick state config deltaMs) = true -> isInOvertime state = false.
Proof.
  unfold tick. destruct (isInOvertime state); [discriminate|reflexivity].
Qed.

Lemma onMove_fields (state : PlayerState) (config : TimeControlConfig) :
  isInOvertime (onMove state config) = isInOvertime state
  /\ moves (onMove state config) = moves state + 1
  /\ (isInOvertime state = true ->
      mainTimeRemainingMs (onMove state config) = mainTimeRemainingMs state).
Proof.
  destruct state as [m ot mv io]. unfold onMove. cbn.
  destruct config as [c|c|c], io, ot as [[o|o]|]; cbn;
    try (repeat split; reflexivity || discriminate).
  destruct (stonesRemaining o - 1 <=? 0); repeat split.
Qed.

(** X4.  Overtime is never left: [tick] never changes [moves]; on a state
    in overtime, [tick] and [onMove] keep [isInOvertime] true and
    [mainTimeRemainingMs] as it is, and [tick] does not report
    [enteredOvertime] a second time. *)
Theorem overtime_is_permanent
    (state : PlayerState) (config : TimeControlConfig) (deltaMs : Z) :
  moves (newState (tick state config deltaMs)) = moves state
  /\ (isInOvertime state = true ->
      isInOvertime (newState (tick state config deltaMs)) = true
      /\ mainTimeRemainingMs (newState (tick state config deltaMs))
         = mainTimeRemainingMs state
      /\ enteredOvertime (tick state config deltaMs) = false
      /\ isInOvertime (onMove state config) = true
      /\ mainTimeRemainingMs (onMove state config) = mainTimeRemainingMs state).
Proof.
  split; [apply tick_moves|].
  intros Hio.
  destruct (onMove_fields state config) as (Hmio & _ & Hmmain).
  rewrite tick_isInOvertime, Hio, Hmio, (Hmmain Hio).
  rewrite (tick_in_overtime state config deltaMs Hio).
  cbn [newState enteredOvertime].
  rewrite (proj2 (tickOvertime_fields _ _ _)).
  repeat split; try reflexivity; exact Hio.
Qed.

(** ** Byo-yomi and Canadian overtime as a whole *)

(** X5.  The byo-yomi time bank, on whole milliseconds.  With integer
    times and delta (on which the arithmetic of the code is exact): in
    byo-yomi overtime with [P >= 1] periods, [R] on the current one and a
    positive period duration, the player holds [R + (P - 1) * period] in
    all.  A tick expires exactly
    when [deltaMs] uses all of it up; otherwise what is left, counted
    the same way, is the bank less [deltaMs], at least one period
    remains with time on it, and a period clock that was within one
    period stays so. *)
Theorem tick_byoyomi_time_bank
    (c : ByoYomiConfig) (state : PlayerState) (o : ByoYomiOvertime) (deltaMs : Z) :
  isInOvertime state = true ->
  overtime state = Some (OTByoyomi o) ->
  1 <= periodsRemaining o ->
  0 < periodTimeSeconds c ->
  let period := periodTimeSeconds c * 1000 in
  let bank := periodTimeRemainingMs o + (periodsRemaining o - 1) * period in
  expired (tick state (Byoyomi c) deltaMs) = (bank - deltaMs <=? 0)
  /\ (0 < bank - deltaMs ->
      exists o' : ByoYomiOvertime,
        overtime (newState (tick state (Byoyomi c) deltaMs)) = Some (OTByoyomi o')
        /\ 1 <= periodsRemaining o' <= periodsRemaining o
        /\ 0 < periodTimeRemainingMs o'
        /\ periodTimeRemainingMs o' + (periodsRemaining o' - 1) * period
           = bank - deltaMs
        /\ (0 <= deltaMs -> periodTimeRemainingMs o <= period ->
            periodTimeRemainingMs o' <= period)).
Proof.
  intros Hio Hot HP HT. cbv zeta.
  rewrite (tick_in_overtime state (Byoyomi c) deltaMs Hio).
  cbn [newState expired].
  destruct (tickOvertime_byoyomi c state o deltaMs Hot ltac:(lia))
    as (k & Hk & Hle & Hpos & ->).
  cbn [fst snd set_overtime overtime].
  destruct (k <? periodsRemaining o) eqn:E.
  - apply Z.ltb_lt in E. specialize (Hpos E).
    assert (Hbank : 0 < periodTimeRemainingMs o
                        + (periodsRemaining o - 1) * (periodTimeSeconds c * 1000)
                        - deltaMs) by nia.
    split.
    + cbn [negb]. symmetry. apply Z.leb_gt. exact Hbank.
    + intros _. eexists. split; [reflexivity|].
      cbn [periodsRemaining periodTimeRemainingMs].
      split; [lia|]. split; [exact Hpos|]. split; [ring|].
      intros Hd HR.
      destruct (Z.eq_dec k 0) as [->|Hk0]; [lia|].
      specialize (Hle (k - 1) ltac:(lia)). lia.
  - apply Z.ltb_ge in E.
    assert (Hall : k = periodsRemaining o) by lia.
    specialize (Hle (periodsRemaining o - 1) ltac:(lia)).
    split.
    + cbn [negb]. symmetry. apply Z.leb_le. lia.
    + intros Habs. lia.
Qed.

Lemma tick_byoyomi_time_bank_witness :
  let state := mkPlayerState 0 (Some (OTByoyomi (mkByoYomiOvertime 3 1000))) 0 true in
  (isInOvertime state = true
   /\ overtime state = Some (OTByoyomi (mkByoYomiOvertime 3 1000))
   /\ 1 <= 3 /\ 0 < 30)
  /\ expired (tick state byo60 61000) = (1000 + (3 - 1) * (30 * 1000) - 61000 <=? 0)
  /\ expired (tick state byo60 61000) = true
  /\ expired (tick state byo60 60999) = false.
Proof.
  cbv zeta. split; [repeat split; lia|]. split; [|split; reflexivity].
  exact (proj1 (tick_byoyomi_time_bank (mkByoYomiConfig 60 3 30)
                  (mkPlayerState 0 (Some (OTByoyomi (mkByoYomiOvertime 3 1000))) 0 true)
                  (mkByoYomiOvertime 3 1000) 61000
                  eq_refl eq_refl ltac:(cbn; lia) ltac:(cbn; lia))).
Defined.

(** X6.  Moving in time keeps the period.  In byo-yomi overtime with a
    period left, a move followed by a tick shorter than the period
    duration does not expire and consumes no period: the period clock
    restarts from the full duration. *)
Theorem byoyomi_move_within_period
    (c : ByoYomiConfig) (state : PlayerState) (o : ByoYomiOvertime) (deltaMs : Z) :
  isInOvertime state = true ->
  overtime state = Some (OTByoyomi o) ->
  0 < periodsRemaining o ->
  deltaMs < periodTimeSeconds c * 1000 ->
  tick (onMove state (Byoyomi c)) (Byoyomi c) deltaMs
  = {| newState :=
         {| mainTimeRemainingMs := mainTimeRemainingMs state;
            overtime :=
              Some (OTByoyomi
                      {| periodsRemaining := periodsRemaining o;
                         periodTimeRemainingMs :=
                           periodTimeSeconds c * 1000 - deltaMs |});
            moves := moves state + 1;
            isInOvertime := true |};
       expired := false;
       enteredOvertime := false |}.
Proof.
  intros Hio Hot HP Hd.
  destruct state as [m ot mv io]. cbn in Hio, Hot. subst io ot.
  unfold onMove. cbn [set_moves isInOvertime overtime moves mainTimeRemainingMs
                      set_overtime].
  rewrite tick_in_overtime by reflexivity.
  unfold tickOvertime.
  cbn [overtime set_overtime set_moves moves mainTimeRemainingMs isInOvertime
       periodsRemaining periodTimeRemainingMs fst snd].
  rewrite consumePeriods_step.
  assert (E : periodExpired
                {| periodsRemaining := periodsRemaining o;
                   periodTimeRemainingMs := periodTimeSeconds c * 1000 - deltaMs |}
              = false) by (apply periodExpired_false; cbn; lia).
  rewrite E. cbn [periodsRemaining].
  assert (E' : (periodsRemaining o <=? 0) = false) by (apply Z.leb_gt; lia).
  rewrite E'. reflexivity.
Qed.

Lemma byoyomi_move_within_period_witness :
  let state := mkPlayerState 0 (Some (OTByoyomi (mkByoYomiOvertime 1 200))) 41 true in
  (isInOvertime state = true
   /\ overtime state = Some (OTByoyomi (mkByoYomiOvertime 1 200))
   /\ 0 < 1 /\ 29999 < 30 * 1000)
  /\ tick (onMove state byo60) byo60 29999
     = mkTickResult
         (mkPlayerState 0 (Some (OTByoyomi (mkByoYomiOvertime 1 1))) 42 true)
         false false.
Proof.
  cbv zeta. split; [repeat split; lia|].
  exact (byoyomi_move_within_period (mkByoYomiConfig 60 3 30)
           (mkPlayerState 0 (Some (OTByoyomi (mkByoYomiOvertime 1 200))) 41 true)
           (mkByoYomiOvertime 1 200) 29999
           eq_refl eq_refl ltac:(cbn; lia) ltac:(cbn; lia)).
Defined.

Lemma canadian_state_eq (m R mv mv' S S' : Z) :
  S = S' -> mv = mv' ->
  mkPlayerState m (Some (OTCanadian (mkCanadianOvertime S R))) mv true
  = mkPlayerState m (Some (OTCanadian (mkCanadianOvertime S' R))) mv' true.
Proof. intros -> ->. reflexivity. Qed.

(** Moves in a Canadian block that is not yet complete only count the
    stones down. *)
Lemma onMove_canadian_iter
    (c : CanadianConfig) (state : PlayerState) (o : CanadianOvertime) (n : nat) :
  isInOvertime state = true ->
  overtime state = Some (OTCanadian o) ->
  Z.of_nat n < stonesRemaining o ->
  Nat.iter n (fun s => onMove s (Canadian c)) state
  = {| mainTimeRemainingMs := mainTimeRemainingMs state;
       overtime :=
         Some (OTCanadian
                 {| stonesRemaining := stonesRemaining o - Z.of_nat n;
                    overtimeRemainingMs := overtimeRemainingMs o |});
       moves := moves state + Z.of_nat n;
       isInOvertime := true |}.
Proof.
  intros Hio Hot. induction n as [|n IH]; intros Hn.
  - destruct state as [m ot mv io], o as [S R]. cbn in *. subst.
    apply canadian_state_eq; lia.
  - rewrite Nat.iter_succ. rewrite IH by lia.
    unfold onMove.
    cbn [set_moves set_overtime isInOvertime overtime moves mainTimeRemainingMs
         stonesRemaining overtimeRemainingMs].
    assert (E : (stonesRemaining o - Z.of_nat n - 1 <=? 0) = false)
      by (apply Z.leb_gt; lia).
    rewrite E. unfold set_overtime, set_moves.
    cbn [moves mainTimeRemainingMs isInOvertime overtime].
    apply canadian_state_eq; lia.
Qed.

(** X7.  A Canadian block.  From a Canadian overtime state with [n >= 1]
    stones to play, the first [n - 1] moves only lower
    [stonesRemaining], and the [n]-th move starts the next block: stones
    and overtime are back to the configured values, whatever time was
    left. *)
Theorem canadian_block_completed
    (c : CanadianConfig) (state : PlayerState) (o : CanadianOvertime) (n : nat) :
  isInOvertime state = true ->
  overtime state = Some (OTCanadian o) ->
  stonesRemaining o = Z.of_nat (S n) ->
  (forall k : nat, (k <= n)%nat ->
     overtime (Nat.iter k (fun s => onMove s (Canadian c)) state)
     = Some (OTCanadian
               {| stonesRemaining := stonesRemaining o - Z.of_nat k;
                  overtimeRemainingMs := overtimeRemainingMs o |}))
  /\ Nat.iter (S n) (fun s => onMove s (Canadian c)) state
     = {| mainTimeRemainingMs := mainTimeRemainingMs state;
          overtime :=
            Some (OTCanadian
                    {| stonesRemaining := stones c;
                       overtimeRemainingMs := overtimeSeconds c * 1000 |});
          moves := moves state + Z.of_nat (S n);
          isInOvertime := true |}.
Proof.
  intros Hio Hot Hn. split.
  - intros k Hk.
    rewrite (onMove_canadian_iter c state o k Hio Hot) by lia.
    reflexivity.
  - rewrite Nat.iter_succ.
    rewrite (onMove_canadian_iter c state o n Hio Hot) by lia.
    unfold onMove.
    cbn [set_moves set_overtime isInOvertime overtime moves mainTimeRemainingMs
         stonesRemaining overtimeRemainingMs].
    assert (E : (stonesRemaining o - Z.of_nat n - 1 <=? 0) = true)
      by (apply Z.leb_le; lia).
    rewrite E. unfold set_overtime, set_moves.
    cbn [moves mainTimeRemainingMs isInOvertime overtime].
    apply canadian_state_eq; lia.
Qed.

Lemma canadian_block_completed_witness :
  let state := mkPlayerState 0 (Some (OTCanadian (mkCanadianOvertime 3 777))) 10 true in
  (isInOvertime state = true
   /\ overtime state = Some (OTCanadian (mkCanadianOvertime 3 777))
   /\ 3 = Z.of_nat 3)
  /\ Nat.iter 3 (fun s => onMove s can60) state
     = mkPlayerState 0 (Some (OTCanadian (mkCanadianOvertime 25 (300 * 1000)))) 13 true.
Proof.
  cbv zeta. split; [repeat split|].
  exact (proj2 (canadian_block_completed (mkCanadianConfig 60 25 300)
                  (mkPlayerState 0 (Some (OTCanadian (mkCanadianOvertime 3 777))) 10 true)
                  (mkCanadianOvertime 3 777) 2 eq_refl eq_refl eq_refl)).
Defined.



(** X9.  A Canadian configuration with [overtimeSeconds = 0] (which the
    form of [ConfigScreen] accepts: the minutes and the seconds of
    overtime both have a minimum of 0) has no overtime to speak of: the
    tick that uses up main time enters overtime and expires in the same
    call. *)
Theorem tick_canadian_no_overtime
    (c : CanadianConfig) (state : PlayerState) (deltaMs : Z) :
  overtimeSeconds c = 0 ->
  isInOvertime state = false ->
  mainTimeRemainingMs state <= deltaMs ->
  tick state (Canadian c) deltaMs
  = {| newState :=
         {| mainTimeRemainingMs := 0;
            overtime := Some (OTCanadian {| stonesRemaining := stones c;
                                            overtimeRemainingMs := 0 |});
            moves := moves state;
            isInOvertime := true |};
       expired := true;
       enteredOvertime := true |}.
Proof.
  intros Hzero Hio Hle.
  rewrite (tick_crossing state (Canadian c) deltaMs _ Hio Hle eq_refl).
  unfold tickOvertime. cbn [overtime stonesRemaining overtimeRemainingMs].
  rewrite Hzero.
  assert (E : (0 * 1000 - (deltaMs - mainTimeRemainingMs state) <=? 0) = true)
    by (apply Z.leb_le; lia).
  rewrite E. reflexivity.
Qed.

Lemma tick_canadian_no_overtime_witness :
  let c := mkCanadianConfig 60 25 0 in
  let state := mkPlayerState 16 None 9 false in
  (overtimeSeconds c = 0 /\ isInOvertime state = false
   /\ mainTimeRemainingMs state <= 16)
  /\ tick state (Canadian c) 16
     = mkTickResult
         (mkPlayerState 0 (Some (OTCanadian (mkCanadianOvertime 25 0))) 9 true)
         true true.
Proof.
  cbv zeta. split; [cbn; repeat split; lia|].
  exact (tick_canadian_no_overtime (mkCanadianConfig 60 25 0)
           (mkPlayerState 16 None 9 false) 16 eq_refl eq_refl ltac:(cbn; lia)).
Defined.

(** * The hook [useGameClock] *)

Lemma opponent_involutive (p : Player) : opponent (opponent p) = p.
Proof. destruct p; reflexivity. Qed.

Lemma Player_cases (p q : Player) : q = p \/ q = opponent p.
Proof. destruct p, q; auto. Qed.

Lemma Player_eqb_eq (p q : Player) : Player_eqb p q = true <-> p = q.
Proof. destruct p, q; cbn; split; congruence. Qed.

Lemma has_add_player (a p : Player) (s : list Player) :
  JSSet.has Player_eqb p (JSSet.add Player_eqb a s)
  = Player_eqb p a || JSSet.has Player_eqb p s.
Proof.
  unfold JSSet.add.
  destruct (JSSet.has Player_eqb a s) eqn:Ha.
  - destruct (Player_eqb p a) eqn:E; [|reflexivity].
    apply Player_eqb_eq in E. subst p. rewrite Ha. reflexivity.
  - unfold JSSet.has. rewrite existsb_app. cbn.
    rewrite orb_false_r. apply orb_comm.
Qed.

Lemma playerState_withPlayer_same (p : Player) (s : PlayerState) (g : GameState) :
  playerState (UseGameClock.withPlayer p s g) p = s.
Proof. destruct p; reflexivity. Qed.

Lemma playerState_withPlayer_other (p : Player) (s : PlayerState) (g : GameState) :
  playerState (UseGameClock.withPlayer p s g) (opponent p)
  = playerState g (opponent p).
Proof. destruct p; reflexivity. Qed.

Lemma withPlayer_fields (p : Player) (s : PlayerState) (g : GameState) :
  status (UseGameClock.withPlayer p s g) = status g
  /\ activePlayer (UseGameClock.withPlayer p s g) = activePlayer g
  /\ winner (UseGameClock.withPlayer p s g) = winner g.
Proof. destruct p; repeat split. Qed.

Lemma InPlay_initial_game (config : GameConfig) (p : Player) :
  InPlay (timeControl config) (playerState (createInitialGameState config) p).
Proof. destruct p; apply InPlay_init. Qed.

(** The invariant holds at the start and every action keeps it. *)
Lemma hookInvariant_initial (config : GameConfig) :
  hookInvariant config (UseGameClock.initial config).
Proof.
  unfold hookInvariant. cbn. split; [reflexivity|]. split; [lia|].
  intros p; destruct p; reflexivity.
Qed.

Lemma hookInvariant_gameLoop (config : GameConfig) (deltaMs : Z) (h : UseGameClock.Hook) :
  hookInvariant config h ->
  hookInvariant config (fst (UseGameClock.gameLoop config deltaMs h)).
Proof.
  intros Hinv. unfold UseGameClock.gameLoop.
  destruct (0 <? deltaMs) eqn:Hd; [|exact Hinv].
  apply Z.ltb_lt in Hd.
  unfold UseGameClock.gameLoopUpdate.
  destruct h as [g alerted entered prev].
  unfold hookInvariant in Hinv. cbn [UseGameClock.gameState
    UseGameClock.enteredOvertimeRef] in Hinv |- *.
  destruct (status g) eqn:Hst;
    try (unfold hookInvariant; cbn [fst UseGameClock.gameState
           UseGameClock.enteredOvertimeRef]; rewrite Hst; exact Hinv).
  destruct Hinv as ((Hwin & Hplay) & Hmoves & Href).
  cbv zeta.
  set (active := activePlayer g) in *.
  set (result := tick (playerState g active) (timeControl config) deltaMs).
  assert (Hnew_moves : moves (newState result) = moves (playerState g active))
    by apply tick_moves.
  assert (Href' : forall p,
            JSSet.has Player_eqb p
              (if enteredOvertime result && negb (JSSet.has Player_eqb active entered)
               then JSSet.add Player_eqb active entered else entered)
            = isInOvertime (playerState (UseGameClock.withPlayer active (newState result) g) p)).
  { intros p.
    assert (Hgoal : JSSet.has Player_eqb p
              (if enteredOvertime result && negb (JSSet.has Player_eqb active entered)
               then JSSet.add Player_eqb active entered else entered)
            = (Player_eqb p active && enteredOvertime result)
              || JSSet.has Player_eqb p entered).
    { destruct (enteredOvertime result) eqn:Hent; cbn [andb].
      - destruct (JSSet.has Player_eqb active entered) eqn:Hhas; cbn [negb].
        + destruct (Player_eqb p active) eqn:E; [|rewrite andb_false_l; reflexivity].
          apply Player_eqb_eq in E. subst p. rewrite Hhas. reflexivity.
        + rewrite has_add_player, andb_true_r. reflexivity.
      - rewrite andb_false_r. reflexivity. }
    rewrite Hgoal, Href.
    destruct (Player_cases active p) as [->| ->].
    - rewrite playerState_withPlayer_same.
      unfold result. rewrite tick_isInOvertime.
      assert (E : Player_eqb active active = true) by (apply Player_eqb_eq; reflexivity).
      rewrite E, andb_true_l. apply orb_comm.
    - rewrite playerState_withPlayer_other.
      assert (E : Player_eqb (opponent active) active = false)
        by (destruct active; reflexivity).
      rewrite E. reflexivity. }
  destruct (expired result) eqn:Hexp.
  - (* game over *)
    unfold hookInvariant.
    cbn [fst UseGameClock.gameState UseGameClock.enteredOvertimeRef
         status activePlayer winner].
    fold active.
    assert (Hps : forall p,
              playerState
                {| status := ended; activePlayer := active;
                   black := black (UseGameClock.withPlayer active (newState result) g);
                   white := white (UseGameClock.withPlayer active (newState result) g);
                   winner := Some (opponent active) |} p
              = playerState (UseGameClock.withPlayer active (newState result) g) p)
      by (intros p; destruct p; reflexivity).
    rewrite !Hps.
    rewrite playerState_withPlayer_same, playerState_withPlayer_other.
    split; [split; [reflexivity|split]|split].
    + exists (playerState g active), deltaMs.
      split; [apply Hplay|]. split; [exact Hd|]. split; [exact Hexp|reflexivity].
    + apply Hplay.
    + rewrite Hnew_moves. exact Hmoves.
    + intros p. rewrite Hps. apply Href'.
  - (* the game goes on *)
    unfold hookInvariant.
    cbn [fst UseGameClock.gameState UseGameClock.enteredOvertimeRef].
    destruct (withPlayer_fields active (newState result) g)
      as (Hst' & Hact' & Hwin').
    rewrite Hst in Hst'. rewrite Hwin in Hwin'. fold active in Hact'.
    rewrite Hst', Hact'.
    rewrite playerState_withPlayer_same, playerState_withPlayer_other.
    split; [split; [exact Hwin'|]|split].
    + intros p. destruct (Player_cases active p) as [->| ->].
      * rewrite playerState_withPlayer_same.
        apply InPlay_tick; [apply Hplay|lia|exact Hexp].
      * rewrite playerState_withPlayer_other. apply Hplay.
    + rewrite Hnew_moves. exact Hmoves.
    + exact Href'.
Qed.

Lemma hookInvariant_switchTurn (config : GameConfig) (h : UseGameClock.Hook) :
  hookInvariant config h ->
  hookInvariant config (fst (UseGameClock.switchTurn config h)).
Proof.
  intros Hinv. unfold UseGameClock.switchTurn.
  destruct h as [g alerted entered prev].
  unfold hookInvariant in Hinv. cbn [UseGameClock.gameState
    UseGameClock.enteredOvertimeRef] in Hinv |- *.
  destruct (status g) eqn:Hst;
    try (unfold hookInvariant; cbn [fst UseGameClock.gameState
           UseGameClock.enteredOvertimeRef]; rewrite Hst; exact Hinv).
  destruct Hinv as ((Hwin & Hplay) & Hmoves & Href).
  cbv zeta.
  set (active := activePlayer g) in *.
  set (moved := onMove (playerState g active) (timeControl config)).
  destruct (onMove_fields (playerState g active) (timeControl config))
    as (Hmio & Hmmoves & _).
  fold moved in Hmio, Hmmoves.
  unfold hookInvariant.
  cbn [fst UseGameClock.gameState UseGameClock.enteredOvertimeRef
       status activePlayer winner].
  assert (Hps : forall p,
            playerState
              {| status := running; activePlayer := opponent active;
                 black := black (UseGameClock.withPlayer active moved g);
                 white := white (UseGameClock.withPlayer active moved g);
                 winner := winner g |} p
            = playerState (UseGameClock.withPlayer active moved g) p)
    by (intros p; destruct p; reflexivity).
  split; [split; [exact Hwin|]|split].
  - intros p. rewrite Hps. destruct (Player_cases active p) as [->| ->].
    + rewrite playerState_withPlayer_same. apply InPlay_onMove, Hplay.
    + rewrite playerState_withPlayer_other. apply Hplay.
  - rewrite !Hps, opponent_involutive.
    rewrite playerState_withPlayer_same, playerState_withPlayer_other.
    rewrite Hmmoves. lia.
  - intros p. rewrite Hps, Href.
    destruct (Player_cases active p) as [->| ->].
    + rewrite playerState_withPlayer_same. symmetry. exact Hmio.
    + rewrite playerState_withPlayer_other. reflexivity.
Qed.

Lemma hookInvariant_step (config : GameConfig) (a : UseGameClock.Action)
    (h : UseGameClock.Hook) :
  hookInvariant config h ->
  hookInvariant config (fst (UseGameClock.step config a h)).
Proof.
  intros Hinv. destruct a as [deltaMs| | | | |p]; cbn [UseGameClock.step].
  - apply hookInvariant_gameLoop, Hinv.
  - apply hookInvariant_switchTurn, Hinv.
  - (* pause *)
    unfold UseGameClock.pause. cbn [fst].
    destruct h as [g alerted entered prev]. unfold hookInvariant in *.
    cbn [UseGameClock.gameState UseGameClock.enteredOvertimeRef] in *.
    destruct (status g) eqn:Hst;
      cbn [UseGameClock.gameState UseGameClock.enteredOvertimeRef];
      try (rewrite Hst; exact Hinv).
    exact Hinv.
  - (* resume *)
    unfold UseGameClock.resume. cbn [fst].
    destruct h as [g alerted entered prev]. unfold hookInvariant in *.
    cbn [UseGameClock.gameState UseGameClock.enteredOvertimeRef] in *.
    destruct (status g) eqn:Hst;
      cbn [UseGameClock.gameState UseGameClock.enteredOvertimeRef];
      try (rewrite Hst; exact Hinv).
    exact Hinv.
  - (* reset *)
    apply hookInvariant_initial.
  - (* start *)
    unfold UseGameClock.start. cbn [fst].
    destruct h as [g alerted entered prev]. unfold hookInvariant in *.
    cbn [UseGameClock.gameState UseGameClock.enteredOvertimeRef] in *.
    destruct (status g) eqn:Hst;
      cbn [UseGameClock.gameState UseGameClock.enteredOvertimeRef];
      try (rewrite Hst; exact Hinv).
    destruct Hinv as (Hg & Hmoves & Href). subst g.
    cbn. split; [split; [reflexivity|apply InPlay_initial_game]|].
    split; [destruct p; cbn; lia|exact Href].
Qed.

Lemma HookReached_invariant (config : GameConfig) (h : UseGameClock.Hook) :
  HookReached config h -> hookInvariant config h.
Proof.
  induction 1 as [|a h _ IH].
  - apply hookInvariant_initial.
  - apply hookInvariant_step, IH.
Qed.

Lemma HookReached_run (config : GameConfig) (actions : list UseGameClock.Action)
    (h : UseGameClock.Hook) :
  HookReached config h ->
  HookReached config (fst (UseGameClock.run config actions h)).
Proof.
  revert h. induction actions as [|a rest IH]; intros h Hh; [exact Hh|].
  cbn [UseGameClock.run].
  specialize (IH _ (HookReached_step config a h Hh)).
  destruct (UseGameClock.step config a h) as [h1 e1]. cbn [fst] in IH.
  destruct (UseGameClock.run config rest h1) as [h2 e2]. exact IH.
Qed.

(** X10.  The result of a game.  In every state of the hook, a winner is
    recorded exactly when the game has ended, and then the winner is the
    opponent of the player to move, whose clock was stopped by a tick that
    reported expiry; the winner's own clock never expired.  Until then no
    clock the hook holds has seen an expired tick. *)
Theorem hook_winner (config : GameConfig) (h : UseGameClock.Hook) :
  HookReached config h ->
  let g := UseGameClock.gameState h in
  match winner g with
  | Some w =>
      status g = ended
      /\ activePlayer g = opponent w
      /\ flagFell (timeControl config) (playerState g (opponent w))
      /\ InPlay (timeControl config) (playerState g w)
  | None =>
      status g <> ended
      /\ (forall p, InPlay (timeControl config) (playerState g p))
  end.
Proof.
  intros Hreach. cbv zeta.
  destruct (HookReached_invariant config h Hreach) as (Hst & _ & _).
  destruct (status (UseGameClock.gameState h)) eqn:E.
  - rewrite Hst. cbn [winner createInitialGameState].
    split; [discriminate|apply InPlay_initial_game].
  - destruct Hst as [-> Hplay]. split; [discriminate|exact Hplay].
  - destruct Hst as [-> Hplay]. split; [discriminate|exact Hplay].
  - destruct Hst as (-> & Hfell & Hplay).
    rewrite opponent_involutive. repeat split; assumption.
Qed.

Lemma hook_winner_witness :
  let h :=
    fst (UseGameClock.run sampleGame
           [UseGameClock.Start Black; UseGameClock.Frame 60000;
            UseGameClock.Frame 90000]
           (UseGameClock.initial sampleGame)) in
  HookReached sampleGame h
  /\ winner (UseGameClock.gameState h) = Some White
  /\ status (UseGameClock.gameState h) = ended
  /\ activePlayer (UseGameClock.gameState h) = opponent White.
Proof.
  cbv zeta.
  pose proof (HookReached_run sampleGame
                [UseGameClock.Start Black; UseGameClock.Frame 60000;
                 UseGameClock.Frame 90000]
                _ (HookReached_initial sampleGame)) as Hreach.
  split; [exact Hreach|]. split; [reflexivity|].
  pose proof (hook_winner sampleGame _ Hreach) as H. cbv zeta in H.
  change (winner _) with (Some White) in H.
  split; [exact (proj1 H)|exact (proj1 (proj2 H))].
Defined.

(** X11.  The players alternate.  In every state of the hook the move
    counts of the two players differ by at most one, and the player to
    move is never the one ahead. *)
Theorem hook_moves_alternate (config : GameConfig) (h : UseGameClock.Hook) :
  HookReached config h ->
  let g := UseGameClock.gameState h in
  0 <= moves (playerState g (opponent (activePlayer g)))
       - moves (playerState g (activePlayer g)) <= 1.
Proof.
  intros Hreach. apply (HookReached_invariant config h Hreach).
Qed.

Lemma hook_moves_alternate_witness :
  let h :=
    fst (UseGameClock.run sampleGame
           [UseGameClock.Start White; UseGameClock.Frame 1000;
            UseGameClock.SwitchTurn; UseGameClock.Frame 2500;
            UseGameClock.SwitchTurn; UseGameClock.Pause;
            UseGameClock.SwitchTurn; UseGameClock.Resume;
            UseGameClock.SwitchTurn]
           (UseGameClock.initial sampleGame)) in
  HookReached sampleGame h
  /\ activePlayer (UseGameClock.gameState h) = Black
  /\ moves (white (UseGameClock.gameState h)) = 2
  /\ moves (black (UseGameClock.gameState h)) = 1
  /\ 0 <= moves (playerState (UseGameClock.gameState h)
                   (opponent (activePlayer (UseGameClock.gameState h))))
          - moves (playerState (UseGameClock.gameState h)
                     (activePlayer (UseGameClock.gameState h))) <= 1.
Proof.
  cbv zeta.
  pose proof (HookReached_run sampleGame
                [UseGameClock.Start White; UseGameClock.Frame 1000;
                 UseGameClock.SwitchTurn; UseGameClock.Frame 2500;
                 UseGameClock.SwitchTurn; UseGameClock.Pause;
                 UseGameClock.SwitchTurn; UseGameClock.Resume;
                 UseGameClock.SwitchTurn]
                _ (HookReached_initial sampleGame)) as Hreach.
  split; [exact Hreach|]. do 3 (split; [reflexivity|]).
  exact (hook_moves_alternate sampleGame _ Hreach).
Defined.

(** X12.  The hook never runs the Fischer branch of [tickOvertime].
    Under a Fischer configuration, in every state of the hook in which
    the game has not ended neither player is in overtime, and the tick of
    a frame runs no branch of [tickOvertime]. *)
Theorem hook_fischer_branch_not_run
    (config : GameConfig) (c : FischerConfig) (h : UseGameClock.Hook) (deltaMs : Z) :
  HookReached config h ->
  timeControl config = Fischer c ->
  status (UseGameClock.gameState h) <> ended ->
  let g := UseGameClock.gameState h in
  (forall p, isInOvertime (playerState g p) = false)
  /\ snd (tickT (playerState g (activePlayer g)) (timeControl config) deltaMs) = [].
Proof.
  intros Hreach Hc Hst. cbv zeta.
  destruct (HookReached_invariant config h Hreach) as (Hinv & _ & _).
  assert (Hplay : forall p, InPlay (timeControl config)
                              (playerState (UseGameClock.gameState h) p)).
  { destruct (status (UseGameClock.gameState h)).
    - rewrite Hinv. apply InPlay_initial_game.
    - apply Hinv.
    - apply Hinv.
    - contradiction Hst; reflexivity. }
  rewrite Hc in *.
  assert (Hmain : forall p,
            isInOvertime (playerState (UseGameClock.gameState h) p) = false)
    by (intros p; apply (InPlay_fischer_main_time c), Hplay).
  split; [exact Hmain|].
  unfold tickT. rewrite Hmain. cbv zeta.
  destruct (mainTimeRemainingMs _ - deltaMs <=? 0); reflexivity.
Qed.

Lemma hook_fischer_branch_not_run_witness :
  let h :=
    fst (UseGameClock.run fischerGame
           [UseGameClock.Start Black; UseGameClock.Frame 59000;
            UseGameClock.SwitchTurn; UseGameClock.Frame 16]
           (UseGameClock.initial fischerGame)) in
  (HookReached fischerGame h
   /\ status (UseGameClock.gameState h) <> ended)
  /\ black (UseGameClock.gameState h) = mkPlayerState 11000 None 1 false
  /\ snd (tickT (playerState (UseGameClock.gameState h)
                   (activePlayer (UseGameClock.gameState h)))
            (timeControl fischerGame) 60000) = [].
Proof.
  cbv zeta.
  pose proof (HookReached_run fischerGame
                [UseGameClock.Start Black; UseGameClock.Frame 59000;
                 UseGameClock.SwitchTurn; UseGameClock.Frame 16]
                _ (HookReached_initial fischerGame)) as Hreach.
  assert (Hst : status (UseGameClock.gameState
                          (fst (UseGameClock.run fischerGame
                                  [UseGameClock.Start Black; UseGameClock.Frame 59000;
                                   UseGameClock.SwitchTurn; UseGameClock.Frame 16]
                                  (UseGameClock.initial fischerGame)))) <> ended)
    by (vm_compute; discriminate).
  split; [split; [exact Hreach|exact Hst]|]. split; [reflexivity|].
  exact (proj2 (hook_fischer_branch_not_run fischerGame (mkFischerConfig 60 10)
                  _ 60000 Hreach eq_refl Hst)).
Defined.

(** X13.  Once the game has ended nothing but [reset] changes the hook:
    any sequence of frames, turn switches, pauses, resumes and starts
    leaves the hook as it is, so the result stands, and the only sound such
    a sequence plays is the click that [start] plays in every state. *)
Theorem hook_ended_is_final
    (config : GameConfig) (actions : list UseGameClock.Action) (h : UseGameClock.Hook) :
  status (UseGameClock.gameState h) = ended ->
  withoutReset actions = true ->
  fst (UseGameClock.run config actions h) = h
  /\ (forall sound, In (Play sound) (snd (UseGameClock.run config actions h)) ->
        sound = SoundId.click).
Proof.
  intros Hst. induction actions as [|a rest IH]; intros Hno.
  - split; [reflexivity|intros sound []].
  - cbn [withoutReset forallb] in Hno. apply andb_prop in Hno.
    destruct Hno as [Ha Hrest]. specialize (IH Hrest).
    cbn [UseGameClock.run].
    assert (Hstep : fst (UseGameClock.step config a h) = h
                    /\ forall sound,
                         In (Play sound) (snd (UseGameClock.step config a h)) ->
                         sound = SoundId.click).
    { destruct a as [deltaMs| | | | |p]; cbn [UseGameClock.step];
        try discriminate Ha.
      - unfold UseGameClock.gameLoop, UseGameClock.gameLoopUpdate.
        rewrite Hst. destruct (0 <? deltaMs); split; try reflexivity;
          intros sound [].
      - unfold UseGameClock.switchTurn. rewrite Hst. split; [reflexivity|].
        intros sound [H|[]]; discriminate H.
      - unfold UseGameClock.pause. rewrite Hst. split; [reflexivity|].
        intros sound [H|[]]; discriminate H.
      - unfold UseGameClock.resume. rewrite Hst. split; [reflexivity|].
        intros sound [H|[]]; discriminate H.
      - unfold UseGameClock.start. rewrite Hst. split; [reflexivity|].
        intros sound [H|[H|[]]]; [discriminate H|].
        injection H as <-. reflexivity. }
    destruct (UseGameClock.step config a h) as [h1 e1].
    cbn [fst snd] in Hstep. destruct Hstep as [-> He1].
    destruct (UseGameClock.run config rest h) as [h2 e2].
    cbn [fst snd] in IH |- *. destruct IH as [-> He2].
    split; [reflexivity|].
    intros sound Hin. apply in_app_or in Hin.
    destruct Hin as [Hin|Hin]; [apply He1|apply He2]; exact Hin.
Qed.

Lemma hook_ended_is_final_witness :
  let h :=
    fst (UseGameClock.run sampleGame
           [UseGameClock.Start Black; UseGameClock.Frame 60000;
            UseGameClock.Frame 90000]
           (UseGameClock.initial sampleGame)) in
  let later :=
    [UseGameClock.Frame 16; UseGameClock.SwitchTurn; UseGameClock.Pause;
     UseGameClock.Resume; UseGameClock.Start White; UseGameClock.Frame 16] in
  (status (UseGameClock.gameState h) = ended /\ withoutReset later = true)
  /\ fst (UseGameClock.run sampleGame later h) = h.
Proof.
  cbv zeta. split; [split; reflexivity|].
  exact (proj1 (hook_ended_is_final sampleGame
                  [UseGameClock.Frame 16; UseGameClock.SwitchTurn; UseGameClock.Pause;
                   UseGameClock.Resume; UseGameClock.Start White; UseGameClock.Frame 16]
                  (fst (UseGameClock.run sampleGame
                          [UseGameClock.Start Black; UseGameClock.Frame 60000;
                           UseGameClock.Frame 90000]
                          (UseGameClock.initial sampleGame)))
                  eq_refl eq_refl)).
Defined.

(** X14.  The frame that ends the game.  While the game is running, a
    frame with a positive delta ticks the clock of the player to move and
    leaves the other clock and the turn alone.  It plays the gong exactly
    when that tick reports expiry, which is exactly when it ends the
    game: it then plays the gong once, calls [onGameOver] once, with the
    opponent of the player to move, and records that opponent as
    [winner].  Otherwise it plays no gong, calls no [onGameOver], and
    leaves [status] running and [winner] as it was. *)
Theorem gameLoop_gong
    (config : GameConfig) (deltaMs : Z) (h : UseGameClock.Hook) :
  status (UseGameClock.gameState h) = running ->
  0 < deltaMs ->
  let g := UseGameClock.gameState h in
  let active := activePlayer g in
  let result := tick (playerState g active) (timeControl config) deltaMs in
  let after := UseGameClock.gameLoop config deltaMs h in
  let g' := UseGameClock.gameState (fst after) in
  let gameOver :=
    filter (fun e => match e with
                     | Play SoundId.gong | OnGameOver _ => true
                     | _ => false
                     end) (snd after) in
  (In (Play SoundId.gong) (snd after) <-> expired result = true)
  /\ (status g' = ended <-> expired result = true)
  /\ (forall w, In (OnGameOver w) (snd after) <->
                expired result = true /\ w = opponent active)
  /\ (expired result = true ->
      gameOver = [Play SoundId.gong; OnGameOver (opponent active)]
      /\ status g' = ended
      /\ winner g' = Some (opponent active))
  /\ (expired result = false ->
      gameOver = []
      /\ status g' = running
      /\ winner g' = winner g)
  /\ activePlayer g' = active
  /\ playerState g' active = newState result
  /\ playerState g' (opponent active) = playerState g (opponent active).
Proof.
  intros Hst Hd. cbv zeta.
  unfold UseGameClock.gameLoop.
  assert (E : (0 <? deltaMs) = true) by (apply Z.ltb_lt; exact Hd).
  rewrite E. unfold UseGameClock.gameLoopUpdate. rewrite Hst. cbv zeta.
  set (g := UseGameClock.gameState h) in *.
  set (active := activePlayer g).
  set (result := tick (playerState g active) (timeControl config) deltaMs).
  set (announce := enteredOvertime result && _).
  set (isOver := fun e : Effect =>
                   match e with
                   | Play SoundId.gong | OnGameOver _ => true
                   | _ => false
                   end).
  assert (Hann : filter isOver
                   (if announce
                    then [Play SoundId.alert; OnEnteredOvertime active]
                    else []) = [])
    by (destruct announce; reflexivity).
  assert (Hover : forall (l : list Effect) e,
            isOver e = true -> (In e l <-> In e (filter isOver l))).
  { intros l e He. rewrite filter_In. tauto. }
  destruct (expired result) eqn:Hexp; cbn [fst snd UseGameClock.gameState].
  - assert (Hf : filter isOver
                   ((if announce
                     then [Play SoundId.alert; OnEnteredOvertime active]
                     else [])
                    ++ [Play SoundId.gong; OnGameOver (opponent active)])
                 = [Play SoundId.gong; OnGameOver (opponent active)])
      by (rewrite filter_app, Hann; reflexivity).
    split; [|split; [|split; [|split; [|split; [|split; [|split]]]]]].
    + rewrite (Hover _ (Play SoundId.gong) eq_refl), Hf.
      split; [reflexivity|intros _; left; reflexivity].
    + split; reflexivity.
    + intros w. rewrite (Hover _ (OnGameOver w) eq_refl), Hf. split.
      * intros [H|[H|[]]]; [discriminate H|].
        injection H as <-. split; reflexivity.
      * intros [_ ->]. right. left. reflexivity.
    + intros _. split; [exact Hf|]. split; reflexivity.
    + discriminate.
    + reflexivity.
    + cbn [status activePlayer black white winner].
      destruct active; reflexivity.
    + cbn [status activePlayer black white winner].
      destruct active; reflexivity.
  - assert (Hf : forall (b1 b2 : bool) (seconds : Z),
              filter isOver
                ((if announce
                  then [Play SoundId.alert; OnEnteredOvertime active]
                  else [])
                 ++ (if b1 then [Play SoundId.alert] else [])
                 ++ (if b2
                     then [Play SoundId.tick; OnLowTime active seconds]
                     else [])) = []).
    { intros b1 b2 seconds. rewrite !filter_app, Hann.
      destruct b1, b2; reflexivity. }
    destruct (withPlayer_fields active (newState result) g)
      as (Hs & Ha & Hw).
    fold g in Hst. rewrite Hst in Hs.
    split; [|split; [|split; [|split; [|split; [|split; [|split]]]]]].
    + rewrite (Hover _ (Play SoundId.gong) eq_refl), Hf.
      split; [intros []|discriminate].
    + rewrite Hs. split; discriminate.
    + intros w. rewrite (Hover _ (OnGameOver w) eq_refl), Hf.
      split; [intros []|intros [H _]; discriminate H].
    + discriminate.
    + intros _. split; [apply Hf|]. split; [exact Hs|exact Hw].
    + exact Ha.
    + apply playerState_withPlayer_same.
    + apply playerState_withPlayer_other.
Qed.

Lemma gameLoop_gong_witness :
  let h :=
    fst (UseGameClock.run sampleGame
           [UseGameClock.Start Black; UseGameClock.Frame 60000]
           (UseGameClock.initial sampleGame)) in
  (status (UseGameClock.gameState h) = running /\ 0 < 90000)
  /\ snd (UseGameClock.gameLoop sampleGame 90000 h)
     = [Play SoundId.gong; OnGameOver White]
  /\ In (Play SoundId.gong) (snd (UseGameClock.gameLoop sampleGame 90000 h))
  /\ status (UseGameClock.gameState (fst (UseGameClock.gameLoop sampleGame 90000 h)))
     = ended
  /\ winner (UseGameClock.gameState (fst (UseGameClock.gameLoop sampleGame 90000 h)))
     = Some White.
Proof.
  cbv zeta. split; [split; [reflexivity|lia]|]. split; [reflexivity|].
  pose proof (gameLoop_gong sampleGame 90000
                (fst (UseGameClock.run sampleGame
                        [UseGameClock.Start Black; UseGameClock.Frame 60000]
                        (UseGameClock.initial sampleGame)))
                eq_refl ltac:(lia)) as H.
  cbv zeta in H. destruct H as (Hgong & Hend & _ & Hover & _).
  split; [apply Hgong; reflexivity|].
  split; [apply Hend; reflexivity|].
  exact (proj2 (proj2 (Hover eq_refl))).
Defined.

(** X15.  The overtime notification.  In a state of the hook with the
    game running, a frame with a positive delta calls [onEnteredOvertime]
    exactly when the tick of the player to move reports [enteredOvertime],
    and for that player; the guard on [enteredOvertimeRef] never holds a
    notification back.  Such a frame plays the alert exactly once. *)
Theorem gameLoop_entered_overtime
    (config : GameConfig) (deltaMs : Z) (h : UseGameClock.Hook) :
  HookReached config h ->
  status (UseGameClock.gameState h) = running ->
  0 < deltaMs ->
  let g := UseGameClock.gameState h in
  let entered :=
    enteredOvertime
      (tick (playerState g (activePlayer g)) (timeControl config) deltaMs) in
  let effects := snd (UseGameClock.gameLoop config deltaMs h) in
  (forall p, In (OnEnteredOvertime p) effects <->
             p = activePlayer g /\ entered = true)
  /\ (entered = true ->
      filter (fun e => match e with Play SoundId.alert => true | _ => false end)
        effects
      = [Play SoundId.alert]).
Proof.
  intros Hreach Hst Hd. cbv zeta.
  destruct (HookReached_invariant config h Hreach) as (_ & _ & Href).
  unfold UseGameClock.gameLoop.
  assert (E : (0 <? deltaMs) = true) by (apply Z.ltb_lt; exact Hd).
  rewrite E. unfold UseGameClock.gameLoopUpdate. rewrite Hst. cbv zeta.
  set (g := UseGameClock.gameState h) in *.
  set (result := tick (playerState g (activePlayer g)) (timeControl config) deltaMs).
  assert (Hannounce :
            enteredOvertime result
            && negb (JSSet.has Player_eqb (activePlayer g)
                       (UseGameClock.enteredOvertimeRef h))
            = enteredOvertime result).
  { destruct (enteredOvertime result) eqn:Hent; [|reflexivity].
    rewrite Href.
    rewrite (tick_enteredOvertime_main _ _ _ Hent). reflexivity. }
  rewrite Hannounce.
  destruct (enteredOvertime result) eqn:Hent; cbn [negb andb].
  - rewrite andb_false_r.
    destruct (expired result); cbn [snd].
    + split.
      * intros p. cbn. split.
        -- intros [H|[H|[H|[H|[]]]]]; try discriminate H.
           injection H as <-. split; reflexivity.
        -- intros [-> _]. right. left. reflexivity.
      * intros _. reflexivity.
    + split.
      * intros p. cbn [app]. split.
        -- intros [H|[H|Hin]]; try discriminate H.
           ++ injection H as <-. split; reflexivity.
           ++ exfalso. revert Hin.
              match goal with |- In _ (if ?b then _ else _) -> _ => destruct b end;
                cbn; intuition discriminate.
        -- intros [-> _]. right. left. reflexivity.
      * intros _. cbn [app filter].
        match goal with |- context [if ?b then [Play SoundId.tick; _] else _] =>
          destruct b end; reflexivity.
  - split; [|discriminate].
    intros p. split; [|intros [_ H]; discriminate H].
    intros Hin. exfalso. revert Hin.
    destruct (expired result); cbn [snd app].
    + cbn. intuition discriminate.
    + intros Hin. apply in_app_or in Hin. destruct Hin as [Hin|Hin]; revert Hin.
      * match goal with |- In _ (if ?b then _ else _) -> _ => destruct b end;
          cbn; intuition discriminate.
      * match goal with |- In _ (if ?b then _ else _) -> _ => destruct b end;
          cbn; intuition discriminate.
Qed.

Lemma gameLoop_entered_overtime_witness :
  let h :=
    fst (UseGameClock.run sampleGame
           [UseGameClock.Start Black; UseGameClock.Frame 59000]
           (UseGameClock.initial sampleGame)) in
  (HookReached sampleGame h
   /\ status (UseGameClock.gameState h) = running
   /\ 0 < 1500)
  /\ snd (UseGameClock.gameLoop sampleGame 1500 h)
     = [Play SoundId.alert; OnEnteredOvertime Black]
  /\ In (OnEnteredOvertime Black) (snd (UseGameClock.gameLoop sampleGame 1500 h)).
Proof.
  cbv zeta.
  pose proof (HookReached_run sampleGame
                [UseGameClock.Start Black; UseGameClock.Frame 59000]
                _ (HookReached_initial sampleGame)) as Hreach.
  split; [split; [exact Hreach|split; [reflexivity|lia]]|].
  split; [reflexivity|].
  pose proof (gameLoop_entered_overtime sampleGame 1500 _ Hreach eq_refl ltac:(lia))
    as H.
  cbv zeta in H. apply (proj1 H). split; reflexivity.
Defined.

(** Every clock the hook holds is a reachable state of the engine. *)
Lemma HookReached_Reachable (config : GameConfig) (h : UseGameClock.Hook) (p : Player) :
  HookReached config h ->
  Reachable (timeControl config) (playerState (UseGameClock.gameState h) p).
Proof.
  intros Hreach.
  destruct (HookReached_invariant config h Hreach) as (Hinv & _ & _).
  destruct (status (UseGameClock.gameState h)).
  - rewrite Hinv. destruct p; apply Reachable_init.
  - apply InPlay_Reachable, Hinv.
  - apply InPlay_Reachable, Hinv.
  - destruct Hinv as (_ & Hfell & Hplay).
    destruct (Player_cases (activePlayer (UseGameClock.gameState h)) p) as [->| ->].
    + destruct Hfell as (before & d & Hb & Hd & _ & ->).
      apply Reachable_tick; [apply InPlay_Reachable, Hb|lia].
    + apply InPlay_Reachable, Hplay.
Qed.

(** X16.  The clocks of a game are always well formed, and the loser's
    reads zero.  With a configuration that meets its constraints, both
    players' clocks satisfy the state invariants in every state of the
    hook; when the game has ended, the clock of the player who lost shows
    [getDisplayTime = 0], which [formatTime] prints as 0:00. *)
Theorem hook_clocks_valid (config : GameConfig) (h : UseGameClock.Hook) :
  HookReached config h ->
  configValid (timeControl config) ->
  let g := UseGameClock.gameState h in
  (forall p, stateValid (timeControl config) (playerState g p))
  /\ (status g = ended ->
      getDisplayTime (playerState g (activePlayer g)) = 0
      /\ formatTime (getDisplayTime (playerState g (activePlayer g))) = "0:00"%string).
Proof.
  intros Hreach Hc. cbv zeta. split.
  - intros p. apply Reachable_valid; [exact Hc|].
    apply HookReached_Reachable, Hreach.
  - intros Hst.
    destruct (HookReached_invariant config h Hreach) as (Hinv & _ & _).
    rewrite Hst in Hinv. destruct Hinv as (_ & Hfell & _).
    destruct Hfell as (before & d & Hb & Hd & Hexp & Heq).
    assert (Hzero : getDisplayTime
                      (playerState (UseGameClock.gameState h)
                         (activePlayer (UseGameClock.gameState h))) = 0).
    { rewrite Heq. apply tick_display; [|exact Hexp].
      apply Reachable_valid; [exact Hc|apply InPlay_Reachable, Hb]. }
    split; [exact Hzero|]. rewrite Hzero. vm_compute. reflexivity.
Qed.

Lemma hook_clocks_valid_witness :
  let h :=
    fst (UseGameClock.run sampleGame
           [UseGameClock.Start Black; UseGameClock.Frame 60000;
            UseGameClock.Frame 90000]
           (UseGameClock.initial sampleGame)) in
  (HookReached sampleGame h /\ configValid (timeControl sampleGame))
  /\ status (UseGameClock.gameState h) = ended
  /\ getDisplayTime (playerState (UseGameClock.gameState h)
                       (activePlayer (UseGameClock.gameState h))) = 0.
Proof.
  cbv zeta.
  pose proof (HookReached_run sampleGame
                [UseGameClock.Start Black; UseGameClock.Frame 60000;
                 UseGameClock.Frame 90000]
                _ (HookReached_initial sampleGame)) as Hreach.
  assert (Hc : configValid (timeControl sampleGame)) by (cbn; lia).
  split; [split; [exact Hreach|exact Hc]|]. split; [reflexivity|].
  exact (proj1 (proj2 (hook_clocks_valid sampleGame _ Hreach Hc) eq_refl)).
Defined.

(** X17.  Every state the engine can reach from the initial state of a
    configuration that meets its constraints, by any ticks with deltas
    that are not negative and any moves, satisfies the state
    invariants. *)
Theorem reachable_states_valid (config : TimeControlConfig) (state : PlayerState) :
  configValid config -> Reachable config state -> stateValid config state.
Proof. apply Reachable_valid. Qed.

Lemma reachable_states_valid_witness :
  let state :=
    onMove (newState (tick (createInitialPlayerState can60) can60 61000)) can60 in
  (configValid can60 /\ Reachable can60 state)
  /\ state = mkPlayerState 0 (Some (OTCanadian (mkCanadianOvertime 24 299000))) 1 true
  /\ stateValid can60 state.
Proof.
  cbv zeta.
  assert (Hc : configValid can60) by (cbn; lia).
  assert (Hr : Reachable can60
                 (onMove (newState (tick (createInitialPlayerState can60) can60 61000))
                    can60)).
  { apply Reachable_onMove, Reachable_tick; [apply Reachable_init|lia]. }
  split; [split; [exact Hc|exact Hr]|]. split; [reflexivity|].
  exact (reachable_states_valid can60 _ Hc Hr).
Defined.

(** * The configuration form *)

(** X18.  A number field commits a value within its bounds: for
    [min <= max], [handleBlur] hands [onChange] a value between [min] and
    [max] whatever was typed: [min] itself for text that is not a number,
    a number within the bounds unchanged, [min] for a number below [min]
    and [max] for a number above [max]. *)
Theorem handleBlur_within_bounds (min max : Z) (parsed : option Z) :
  min <= max ->
  min <= ConfigScreen.handleBlur min max parsed <= max
  /\ (forall v, parsed = Some v -> min <= v <= max ->
        ConfigScreen.handleBlur min max parsed = v)
  /\ (parsed = None -> ConfigScreen.handleBlur min max parsed = min)
  /\ (forall v, parsed = Some v -> v < min ->
        ConfigScreen.handleBlur min max parsed = min)
  /\ (forall v, parsed = Some v -> max < v ->
        ConfigScreen.handleBlur min max parsed = max).
Proof.
  intros Hle. unfold ConfigScreen.handleBlur, JS.Math_max.
  destruct parsed as [v|].
  - split; [lia|]. split; [|split; [discriminate|split]];
      intros v' Hv Hr; injection Hv as <-; lia.
  - split; [lia|]. split; [discriminate|]. split; [reflexivity|].
    split; discriminate.
Qed.

Lemma handleBlur_within_bounds_witness :
  0 <= 59
  /\ ConfigScreen.handleBlur 0 59 (Some 75) = 59
  /\ ConfigScreen.handleBlur 0 59 (Some (-3)) = 0
  /\ ConfigScreen.handleBlur 0 59 (Some 30) = 30
  /\ ConfigScreen.handleBlur 0 59 None = 0.
Proof.
  assert (H : 0 <= 59) by lia.
  split; [exact H|]. split; [|split; [|split]].
  - apply (proj2 (proj2 (proj2 (proj2
             (handleBlur_within_bounds 0 59 (Some 75) H)))) 75 eq_refl).
    lia.
  - apply (proj1 (proj2 (proj2 (proj2
             (handleBlur_within_bounds 0 59 (Some (-3)) H)))) (-3) eq_refl).
    lia.
  - apply (proj1 (proj2 (handleBlur_within_bounds 0 59 (Some 30) H)) 30 eq_refl).
    lia.
  - exact (proj1 (proj2 (proj2 (handleBlur_within_bounds 0 59 None H))) eq_refl).
Defined.

(** X19.  What the form starts a game with.  For field values within the
    bounds of the form's inputs, the configuration [handleStart] builds
    has [mainTimeSeconds = minutes * 60 + seconds] and meets the
    constraints the engine assumes in every case but one: a Canadian
    configuration whose overtime minutes and seconds are both 0. *)
Theorem handleStart_valid (config : ConfigScreen.StoredConfig) :
  ConfigScreen.withinInputs config ->
  mainTimeSeconds (timeControl (ConfigScreen.handleStart config))
  = ConfigScreen.mainTimeMinutes config * 60 + ConfigScreen.mainTimeSeconds config
  /\ (configValid (timeControl (ConfigScreen.handleStart config))
      <-> (ConfigScreen.timeControlType config = ConfigScreen.canadian ->
           0 < ConfigScreen.canadianOvertimeMinutes config * 60
               + ConfigScreen.canadianOvertimeSeconds config)).
Proof.
  intros (Hmm & Hms & Hp & Hps & Hst & Hom & Hos & Hinc).
  unfold ConfigScreen.handleStart.
  destruct (ConfigScreen.timeControlType config) eqn:E;
    cbn [timeControl mainTimeSeconds byo_mainTimeSeconds can_mainTimeSeconds
         fis_mainTimeSeconds configValid periods periodTimeSeconds stones
         overtimeSeconds incrementSeconds].
  - split; [reflexivity|]. split; [discriminate|intros _; lia].
  - split; [reflexivity|]. split.
    + intros (_ & _ & H) _. exact H.
    + intros H. specialize (H eq_refl). lia.
  - split; [reflexivity|]. split; [discriminate|intros _; lia].
Qed.

Lemma handleStart_valid_witness :
  ConfigScreen.withinInputs ConfigScreen.DEFAULT_CONFIG
  /\ ConfigScreen.handleStart ConfigScreen.DEFAULT_CONFIG
     = mkGameConfig (Byoyomi (mkByoYomiConfig 600 5 30)) subtle
  /\ configValid (timeControl (ConfigScreen.handleStart ConfigScreen.DEFAULT_CONFIG)).
Proof.
  assert (H : ConfigScreen.withinInputs ConfigScreen.DEFAULT_CONFIG)
    by (unfold ConfigScreen.withinInputs; cbn; lia).
  split; [exact H|]. split; [reflexivity|].
  apply (proj2 (handleStart_valid ConfigScreen.DEFAULT_CONFIG H)).
  discriminate.
Defined.
